(** * The gossip store of libopenstorage/gossip (proto/gossip_store.go)

    A shallow embedding of [GossipStoreImpl] and of its operations, and the
    properties of the store that the specification states about them.

    Go maps are finite maps ([gmap]); a map that may be [nil] is an
    [option] of one.  The store-wide mutex makes every exported method one
    atomic step, so a method is a function from store to store.  Every
    [time.Now()] is a reading taken from a clock, and a method that writes
    into a nil map panics, which is the result [None]. *)

From stdpp Require Import gmap strings list fin_maps.

Local Open Scope string_scope.
Local Open Scope list_scope.

(** ** Package [types] *)

Module types.

Abbreviation NodeId := string (only parsing).
Abbreviation StoreKey := string (only parsing).

(** Instants of [time.Time], counted from the zero instant. *)
Abbreviation Time := Z (only parsing).

(** Modelled from the spec: [types.NodeStatus] is declared outside this
    file; the spec lists its values, INVALID being the zero value. *)
Inductive NodeStatus :=
| NODE_STATUS_INVALID
| NODE_STATUS_NEVER_GOSSIPED
| NODE_STATUS_NOT_IN_QUORUM
| NODE_STATUS_UP
| NODE_STATUS_DOWN
| NODE_STATUS_SUSPECT
| NODE_STATUS_LEFT.

#[global] Instance NodeStatus_eq_dec : EqDecision NodeStatus.
Proof. solve_decision. Defined.

(** A payload value, [interface{}] in the source: opaque to the store.
    [VNil] is the nil interface, the zero value. *)
Inductive StoreValue :=
| VNil
| VString (s : string)
| VInt (z : Z)
| VBool (b : bool).

#[global] Instance StoreValue_eq_dec : EqDecision StoreValue.
Proof. solve_decision. Defined.

(** [types.StoreMap] is [map[StoreKey]interface{}]; [None] is the nil map. *)
Abbreviation StoreMap := (option (gmap string StoreValue)) (only parsing).

(** Modelled from the spec: the record [types.NodeInfo], with the fields
    the store reads and writes. *)
Record NodeInfo := mkNodeInfo {
  Id : NodeId;
  GenNumber : N;
  LastUpdateTs : Time;
  WaitForGenUpdateTs : Time;
  Status : NodeStatus;
  Value : StoreMap;
  QuorumMember : bool;
  ClusterDomain : string;
  Addr : string
}.

(** The zero value, what an unchecked lookup of an absent key yields. *)
Definition zeroNodeInfo : NodeInfo :=
  mkNodeInfo "" 0%N 0%Z 0%Z NODE_STATUS_INVALID None false "" "".

(** Field assignments [nodeInfo.F = x]. *)
Definition set_LastUpdateTs (t : Time) (n : NodeInfo) : NodeInfo :=
  mkNodeInfo (Id n) (GenNumber n) t (WaitForGenUpdateTs n) (Status n)
    (Value n) (QuorumMember n) (ClusterDomain n) (Addr n).

Definition set_Status (st : NodeStatus) (n : NodeInfo) : NodeInfo :=
  mkNodeInfo (Id n) (GenNumber n) (LastUpdateTs n) (WaitForGenUpdateTs n) st
    (Value n) (QuorumMember n) (ClusterDomain n) (Addr n).

Definition set_Value (v : StoreMap) (n : NodeInfo) : NodeInfo :=
  mkNodeInfo (Id n) (GenNumber n) (LastUpdateTs n) (WaitForGenUpdateTs n)
    (Status n) v (QuorumMember n) (ClusterDomain n) (Addr n).

Definition set_QuorumMember (q : bool) (n : NodeInfo) : NodeInfo :=
  mkNodeInfo (Id n) (GenNumber n) (LastUpdateTs n) (WaitForGenUpdateTs n)
    (Status n) (Value n) q (ClusterDomain n) (Addr n).

Definition set_ClusterDomain (d : string) (n : NodeInfo) : NodeInfo :=
  mkNodeInfo (Id n) (GenNumber n) (LastUpdateTs n) (WaitForGenUpdateTs n)
    (Status n) (Value n) (QuorumMember n) d (Addr n).

Definition set_Addr (a : string) (n : NodeInfo) : NodeInfo :=
  mkNodeInfo (Id n) (GenNumber n) (LastUpdateTs n) (WaitForGenUpdateTs n)
    (Status n) (Value n) (QuorumMember n) (ClusterDomain n) a.

Abbreviation NodeInfoMap := (gmap string NodeInfo) (only parsing).

(** Modelled from the spec: [types.NodeUpdate], one entry of the peer map
    handed to [updateCluster]. *)
Record NodeUpdate := mkNodeUpdate {
  upd_Addr : string;
  upd_QuorumMember : bool;
  upd_ClusterDomain : string
}.

Definition zeroNodeUpdate : NodeUpdate := mkNodeUpdate "" false "".

(** Modelled from the spec: [types.NodeValue], one entry of the answer of
    [GetStoreKeyValue]. *)
Record NodeValue := mkNodeValue {
  nv_Id : NodeId;
  nv_GenNumber : N;
  nv_LastUpdateTs : Time;
  nv_Status : NodeStatus;
  nv_Value : StoreValue
}.

Abbreviation NodeValueMap := (gmap string NodeValue) (only parsing).

(** Modelled from the spec: [types.ClusterDomainsQuorumMembersMap], domain
    label to the count of quorum members in it. *)
Abbreviation ClusterDomainsQuorumMembersMap := (gmap string nat) (only parsing).

(** Modelled from the spec: [types.NodeMetaInfo], with the fields
    [MetaInfo] fills. *)
Record NodeMetaInfo := mkNodeMetaInfo {
  mi_Id : NodeId;
  mi_LastUpdateTs : Time;
  mi_GossipVersion : string;
  mi_ClusterId : string
}.

End types.

(** ** The clock *)

Module clock.

(** All future readings of the wall clock: [c 0] is the next one. *)
Definition Clock := nat → Z.

Definition Clocked (A : Type) := Clock → A * Clock.

Definition ret {A} (a : A) : Clocked A := λ c, (a, c).

Definition bind {A B} (m : Clocked A) (k : A → Clocked B) : Clocked B :=
  λ c, let '(a, c') := m c in k a c'.

(** [time.Now()] *)
Definition time_Now : Clocked Z := λ c, (c 0, λ n, c (S n)).

(** The readings a computation can have taken from [c]. *)
Definition reading (c : Clock) (t : Z) : Prop := ∃ n, t = c n.

End clock.

Notation "'let*' x ':=' m 'in' k" := (clock.bind m (λ x, k))
  (at level 10, x name, m at level 100, k at level 200, only parsing).

(** ** Package [proto]: the store *)

Module proto.
Import types clock.

(** [for k, v := range m { body }]. Go leaves the order of the iteration
    open; the model takes the order of [map_to_list]. The loops of the
    store visit every key once and act on the visited key alone, so that
    their result is the same in every order ([foldl_get_any_order]). *)
Definition range {V S} (m : gmap string V) (body : string → V → S → S)
    (s : S) : S :=
  foldl (λ acc kv, body kv.1 kv.2 acc) s (map_to_list m).

(** [nodeIdMap] is [map[NodeId]string]. *)
Abbreviation nodeIdMap := (gmap string string) (only parsing).

Record GossipStoreImpl := mkStore {
  id : NodeId;
  GenNumber : N;
  nodeMap : NodeInfoMap;
  selfCorrect : bool;
  GossipVersion : string;
  ClusterId : string;
  clusterSize : N;
  failureDomainsMap : option (gmap string nodeIdMap);
  lostQuorumTs : Time
}.

Definition set_nodeMap (m : NodeInfoMap) (s : GossipStoreImpl) :=
  mkStore (id s) (GenNumber s) m (selfCorrect s) (GossipVersion s)
    (ClusterId s) (clusterSize s) (failureDomainsMap s) (lostQuorumTs s).

Definition set_selfCorrect (b : bool) (s : GossipStoreImpl) :=
  mkStore (id s) (GenNumber s) (nodeMap s) b (GossipVersion s)
    (ClusterId s) (clusterSize s) (failureDomainsMap s) (lostQuorumTs s).

Definition set_clusterSize (n : N) (s : GossipStoreImpl) :=
  mkStore (id s) (GenNumber s) (nodeMap s) (selfCorrect s) (GossipVersion s)
    (ClusterId s) n (failureDomainsMap s) (lostQuorumTs s).

Definition set_failureDomainsMap (f : option (gmap string nodeIdMap))
    (s : GossipStoreImpl) :=
  mkStore (id s) (GenNumber s) (nodeMap s) (selfCorrect s) (GossipVersion s)
    (ClusterId s) (clusterSize s) f (lostQuorumTs s).

Definition set_lostQuorumTs (t : Time) (s : GossipStoreImpl) :=
  mkStore (id s) (GenNumber s) (nodeMap s) (selfCorrect s) (GossipVersion s)
    (ClusterId s) (clusterSize s) (failureDomainsMap s) t.

(** [&GossipStoreImpl{}] *)
Definition zeroStore : GossipStoreImpl :=
  mkStore "" 0%N ∅ false "" "" 0%N None 0%Z.

(** An unchecked lookup [v, _ := m[k]]. *)
Definition lookup0 (m : NodeInfoMap) (k : NodeId) : NodeInfo :=
  default zeroNodeInfo (m !! k).

Definition InitStore (id0 : NodeId) (version : string) (status : NodeStatus)
    (clusterId selfClusterDomain : string) (s : GossipStoreImpl)
    : Clocked GossipStoreImpl :=
  let* now := time_Now in
  let nodeInfo :=
    mkNodeInfo id0 (GenNumber s) now 0%Z status (Some ∅) false
      selfClusterDomain "" in
  ret (mkStore id0 (GenNumber s) (<[id0 := nodeInfo]> ∅) true version
         clusterId (clusterSize s) (failureDomainsMap s) (lostQuorumTs s)).

Definition NewGossipStore (id0 : NodeId) (version clusterId
    selfClusterDomain : string) : Clocked GossipStoreImpl :=
  let* n := InitStore id0 version NODE_STATUS_NOT_IN_QUORUM clusterId
        selfClusterDomain zeroStore in
  ret (set_selfCorrect false n).

Definition NodeId_of (s : GossipStoreImpl) : NodeId := id s.

Definition UpdateLostQuorumTs (s : GossipStoreImpl)
    : Clocked GossipStoreImpl :=
  let* now := time_Now in ret (set_lostQuorumTs now s).

Definition updateSelfTs (s : GossipStoreImpl) : Clocked GossipStoreImpl :=
  let nodeInfo := lookup0 (nodeMap s) (id s) in
  let* now := time_Now in
  ret (set_nodeMap (<[id s := set_LastUpdateTs now nodeInfo]> (nodeMap s)) s).

(** [nodeInfo.Value[key] = val] panics on the nil map, before the clock is
    read. The map written is the one the stored entry refers to, and the
    entry is stored back: an update of the entry's map. Payload maps are
    values here: no two entries of the node map share one, the self
    entry's being made by [InitStore] or [addNodeUnlocked]. *)
Definition UpdateSelf (key : StoreKey) (val : StoreValue)
    (s : GossipStoreImpl) : Clocked (option GossipStoreImpl) :=
  let nodeInfo := lookup0 (nodeMap s) (id s) in
  match Value nodeInfo with
  | None => ret None
  | Some vm =>
      let nodeInfo := set_Value (Some (<[key := val]> vm)) nodeInfo in
      let* now := time_Now in
      ret (Some (set_nodeMap
                   (<[id s := set_LastUpdateTs now nodeInfo]> (nodeMap s)) s))
  end.

Definition updateSelfClusterDomain (selfClusterDomain : string)
    (s : GossipStoreImpl) : Clocked (bool * GossipStoreImpl) :=
  let nodeInfo := lookup0 (nodeMap s) (id s) in
  let previousClusterDomain := ClusterDomain nodeInfo in
  if decide (previousClusterDomain ≠ selfClusterDomain) then
    let nodeInfo := set_ClusterDomain selfClusterDomain nodeInfo in
    let* now := time_Now in
    ret (true,
         set_nodeMap (<[id s := set_LastUpdateTs now nodeInfo]> (nodeMap s)) s)
  else ret (false, s).

(** A Go [error]: [None] is nil, [Some msg] carries the message. *)
Abbreviation error := (option string) (only parsing).

Definition UpdateNodeStatus (nodeId : NodeId) (status : NodeStatus)
    (s : GossipStoreImpl) : Clocked (error * GossipStoreImpl) :=
  match nodeMap s !! nodeId with
  | None => ret (Some ("Node with id (" +:+ nodeId +:+ ") not found"), s)
  | Some nodeInfo =>
      let nodeInfo := set_Status status nodeInfo in
      let* now := time_Now in
      ret (None,
           set_nodeMap (<[nodeId := set_LastUpdateTs now nodeInfo]> (nodeMap s))
             s)
  end.

Definition UpdateSelfStatus (status : NodeStatus) (s : GossipStoreImpl)
    : Clocked GossipStoreImpl :=
  let* r := UpdateNodeStatus (id s) status s in ret r.2.

Definition GetSelfStatus (s : GossipStoreImpl) : NodeStatus :=
  Status (lookup0 (nodeMap s) (id s)).

Definition statusValid (s : NodeStatus) : bool :=
  bool_decide (s ≠ NODE_STATUS_INVALID) &&
  bool_decide (s ≠ NODE_STATUS_NEVER_GOSSIPED).

(** The body of the loop of [GetStoreKeyValue]. Reading a missing key
    gives the nil interface. *)
Definition GetStoreKeyValue_body (key : StoreKey) (id0 : NodeId)
    (nodeInfo : NodeInfo) (nodeValueMap : NodeValueMap) : NodeValueMap :=
  if statusValid (Status nodeInfo) then
    match Value nodeInfo with
    | Some vm =>
        let ok := bool_decide (size vm = 0) in
        let val := default VNil (vm !! key) in
        let exists_ := bool_decide (is_Some (vm !! key)) in
        if ok || exists_ then
          let n := mkNodeValue (Id nodeInfo) (types.GenNumber nodeInfo)
                     (LastUpdateTs nodeInfo) (Status nodeInfo) val in
          <[id0 := n]> nodeValueMap
        else nodeValueMap
    | None => nodeValueMap
    end
  else nodeValueMap.

Definition GetStoreKeyValue (key : StoreKey) (s : GossipStoreImpl)
    : NodeValueMap :=
  range (nodeMap s) (GetStoreKeyValue_body key) ∅.

Definition addNodeUnlocked (id0 : NodeId) (status : NodeStatus)
    (quorumMember : bool) (failureDomain : string) (s : GossipStoreImpl)
    : Clocked GossipStoreImpl :=
  match nodeMap s !! id0 with
  | Some nodeInfo =>
      let nodeInfo := set_Status status nodeInfo in
      let* now := time_Now in
      let nodeInfo := set_LastUpdateTs now nodeInfo in
      let nodeInfo := set_QuorumMember quorumMember nodeInfo in
      let nodeInfo := set_ClusterDomain failureDomain nodeInfo in
      ret (set_nodeMap (<[id0 := nodeInfo]> (nodeMap s)) s)
  | None =>
      let* now1 := time_Now in
      let* now2 := time_Now in
      ret (set_nodeMap
             (<[id0 := mkNodeInfo id0 0%N now1 now2 status (Some ∅)
                         quorumMember failureDomain ""]> (nodeMap s)) s)
  end.

Definition AddNode (id0 : NodeId) (status : NodeStatus) (quorumMember : bool)
    (failureDomain : string) (s : GossipStoreImpl) : Clocked GossipStoreImpl :=
  addNodeUnlocked id0 status quorumMember failureDomain s.

Definition removeNodeUnlocked (id0 : NodeId) (s : GossipStoreImpl)
    : error * GossipStoreImpl :=
  match nodeMap s !! id0 with
  | None => (Some ("Node " +:+ id0 +:+ " does not exist in map"), s)
  | Some _ => (None, set_nodeMap (delete id0 (nodeMap s)) s)
  end.

Definition RemoveNode (id0 : NodeId) (s : GossipStoreImpl)
    : error * GossipStoreImpl :=
  removeNodeUnlocked id0 s.

Definition getLocalState (s : GossipStoreImpl) : NodeInfoMap :=
  range (nodeMap s) (λ key value localCopy, <[key := value]> localCopy) ∅.

Definition GetLocalState (s : GossipStoreImpl) : NodeInfoMap :=
  getLocalState s.

Definition GetLocalNodeInfo (id0 : NodeId) (s : GossipStoreImpl)
    : NodeInfo * error :=
  match nodeMap s !! id0 with
  | None => (zeroNodeInfo, Some ("Node with id (" +:+ id0 +:+ ") not found"))
  | Some nodeInfo => (nodeInfo, None)
  end.

(** [selfValue.LastUpdateTs.Before(newNodeInfo.LastUpdateTs)] *)
Definition Before (t u : Time) : bool := bool_decide (t < u)%Z.

Definition Update_body (id0 : NodeId) (newNodeInfo : NodeInfo)
    (s : GossipStoreImpl) : GossipStoreImpl :=
  if decide (id0 = id s) then s
  else
    match nodeMap s !! id0 with
    | None => s
    | Some selfValue =>
        if negb (statusValid (Status selfValue)) ||
           Before (LastUpdateTs selfValue) (LastUpdateTs newNodeInfo)
        then
          let newNodeInfo := set_Status (Status selfValue) newNodeInfo in
          set_nodeMap (<[id0 := newNodeInfo]> (nodeMap s)) s
        else s
    end.

Definition Update (diff : NodeInfoMap) (s : GossipStoreImpl)
    : GossipStoreImpl :=
  range diff Update_body s.

(** The first loop of [updateClusterDomainsMap]: the node leaves every
    bucket other than [failureDomain]. *)
Definition leaveOthers_body (failureDomain : string) (nodeId : NodeId)
    (fd : string) (nodeIdList : nodeIdMap) (fdm : gmap string nodeIdMap)
    : gmap string nodeIdMap :=
  if decide (fd = failureDomain) then fdm
  else
    match nodeIdList !! nodeId with
    | Some _ => <[fd := delete nodeId nodeIdList]> fdm
    | None => fdm
    end.

(** The failure-domain map as [updateClusterDomainsMap] leaves it: the nil
    map is made, the node leaves the other buckets, and it enters the
    bucket of [failureDomain], which is made when missing. *)
Definition reindex (failureDomain : string) (nodeId : NodeId)
    (f : option (gmap string nodeIdMap)) : gmap string nodeIdMap :=
  let fdm := match f with Some f => f | None => ∅ end in
  let fdm := range fdm (leaveOthers_body failureDomain nodeId) fdm in
  match fdm !! failureDomain with
  | Some nodeIdList =>
      match nodeIdList !! nodeId with
      | None => <[failureDomain := <[nodeId := ""]> nodeIdList]> fdm
      | Some _ => fdm
      end
  | None => <[failureDomain := <[nodeId := ""]> ∅]> fdm
  end.

Definition updateClusterDomainsMap (failureDomain : string) (nodeId : NodeId)
    (s : GossipStoreImpl) : GossipStoreImpl :=
  set_failureDomainsMap
    (Some (reindex failureDomain nodeId (failureDomainsMap s))) s.

(** Reading a nil map or a missing bucket gives the nil [nodeIdMap]. *)
Definition getNodesFromClusterDomain (failureDomain : string)
    (s : GossipStoreImpl) : option nodeIdMap :=
  match failureDomainsMap s with
  | Some fdm => fdm !! failureDomain
  | None => None
  end.

(** [for _, x := range l { body }] over a slice, for a body that reads the
    clock. *)
Fixpoint for_each {A S} (l : list A) (body : A → S → Clocked S) (s : S)
    : Clocked S :=
  match l with
  | [] => ret s
  | x :: l => let* s' := body x s in for_each l body s'
  end.

(** The last loop of [updateCluster]. *)
Definition refresh_body (peers : gmap string NodeUpdate) (id0 : NodeId)
    (nodeInfo : NodeInfo)
    (acc : GossipStoreImpl * ClusterDomainsQuorumMembersMap)
    : GossipStoreImpl * ClusterDomainsQuorumMembersMap :=
  let '(s, quorumMembersMap) := acc in
  let update := default zeroNodeUpdate (peers !! id0) in
  let '(nodeInfo, s) :=
    match peers !! id0 with
    | Some _ =>
        let nodeInfo := set_QuorumMember (upd_QuorumMember update) nodeInfo in
        let nodeInfo := set_ClusterDomain (upd_ClusterDomain update) nodeInfo in
        let nodeInfo := set_Addr (upd_Addr update) nodeInfo in
        let s := set_nodeMap (<[id0 := nodeInfo]> (nodeMap s)) s in
        (nodeInfo, updateClusterDomainsMap (upd_ClusterDomain update) id0 s)
    | None => (nodeInfo, s)
    end in
  if QuorumMember nodeInfo then
    let quorumMembersInDomain :=
      default 0 (quorumMembersMap !! upd_ClusterDomain update) in
    (s, <[upd_ClusterDomain update := S quorumMembersInDomain]>
          quorumMembersMap)
  else (s, quorumMembersMap).

(** The body of the loop of [updateCluster] that adds the new peers. *)
Definition add_body (peers : gmap string NodeUpdate) (nodeId : NodeId)
    (s : GossipStoreImpl) : Clocked GossipStoreImpl :=
  let update := default zeroNodeUpdate (peers !! nodeId) in
  addNodeUnlocked nodeId NODE_STATUS_DOWN (upd_QuorumMember update)
    (upd_ClusterDomain update) s.

Definition updateCluster (peers : gmap string NodeUpdate)
    (s : GossipStoreImpl)
    : Clocked (GossipStoreImpl * ClusterDomainsQuorumMembersMap) :=
  let s := set_clusterSize (N.of_nat (size peers)) s in
  let removeNodeIds :=
    range (nodeMap s)
      (λ id0 _ l, match peers !! id0 with None => l ++ [id0] | Some _ => l end)
      [] in
  let addNodeIds :=
    range peers
      (λ id0 _ l,
         match nodeMap s !! id0 with None => l ++ [id0] | Some _ => l end)
      [] in
  let s := foldl (λ s nodeId, (removeNodeUnlocked nodeId s).2) s
             removeNodeIds in
  let* s := for_each addNodeIds (add_body peers) s in
  ret (range (nodeMap s) (refresh_body peers) (s, ∅)).

(** Modelled from the spec: the exported [UpdateSelfClusterDomain] is
    declared outside this file. By the spec it returns whether the domain
    changed and, when it did, re-indexes the node in the failure-domain
    map; it is [updateSelfClusterDomain] followed, on a change, by
    [updateClusterDomainsMap] for the self id. In this file the re-index
    is done by no method that calls [updateSelfClusterDomain]: the wrapper
    is one more operation of the transition system below, and what is
    proved of the domain of the self node is proved of
    [updateSelfClusterDomain] and [updateClusterDomainsMap] themselves. *)
Definition UpdateSelfClusterDomain (selfClusterDomain : string)
    (s : GossipStoreImpl) : Clocked (bool * GossipStoreImpl) :=
  let* r := updateSelfClusterDomain selfClusterDomain s in
  if r.1 then
    ret (true, updateClusterDomainsMap selfClusterDomain (id r.2) r.2)
  else ret (false, r.2).

(** ** The other readers *)




Definition MetaInfo (s : GossipStoreImpl) : NodeMetaInfo :=
  let selfNodeInfo := lookup0 (nodeMap s) (id s) in
  mkNodeMetaInfo (Id selfNodeInfo) (LastUpdateTs selfNodeInfo)
    (GossipVersion s) (ClusterId s).

(** The first loop of [GetStoreKeys]: the keys of the payload map of one
    node go into the key map; a nil payload map is skipped. *)
Definition GetStoreKeys_body (_ : NodeId) (nodeInfo : NodeInfo)
    (keyMap : gmap string bool) : gmap string bool :=
  match Value nodeInfo with
  | Some vm => range vm (λ key _ keyMap, <[key := true]> keyMap) keyMap
  | None => keyMap
  end.

(** [GetStoreKeys]: the key map is filled, a slice of its length is made,
    and the keys are written into the slice at the indices 0, 1, ... *)
Definition GetStoreKeys (s : GossipStoreImpl) : list StoreKey :=
  let keyMap := range (nodeMap s) GetStoreKeys_body ∅ in
  let storeKeys := replicate (size keyMap) "" in
  (range keyMap
     (λ key _ (acc : list StoreKey * nat),
        (<[acc.2 := key]> acc.1, S acc.2))
     (storeKeys, 0)).1.

(** ** The store as a transition system *)

Inductive Op :=
| OpUpdateSelfTs
| OpUpdateSelf (key : StoreKey) (val : StoreValue)
| OpUpdateSelfClusterDomain (d : string)
| Op_updateSelfClusterDomain (d : string)
| OpUpdateSelfStatus (st : NodeStatus)
| OpUpdateNodeStatus (nodeId : NodeId) (st : NodeStatus)
| OpAddNode (nodeId : NodeId) (st : NodeStatus) (q : bool) (d : string)
| OpRemoveNode (nodeId : NodeId)
| OpUpdate (diff : NodeInfoMap)
| OpUpdateCluster (peers : gmap string NodeUpdate)
| OpUpdateLostQuorumTs.

(** One call on the store; [None] when the call panics. *)
Definition run (o : Op) (s : GossipStoreImpl)
    : Clocked (option GossipStoreImpl) :=
  match o with
  | OpUpdateSelfTs => let* s' := updateSelfTs s in ret (Some s')
  | OpUpdateSelf key val => UpdateSelf key val s
  | OpUpdateSelfClusterDomain d =>
      let* r := UpdateSelfClusterDomain d s in ret (Some r.2)
  | Op_updateSelfClusterDomain d =>
      let* r := updateSelfClusterDomain d s in ret (Some r.2)
  | OpUpdateSelfStatus st => let* s' := UpdateSelfStatus st s in ret (Some s')
  | OpUpdateNodeStatus nodeId st =>
      let* r := UpdateNodeStatus nodeId st s in ret (Some r.2)
  | OpAddNode nodeId st q d =>
      let* s' := AddNode nodeId st q d s in ret (Some s')
  | OpRemoveNode nodeId => ret (Some (RemoveNode nodeId s).2)
  | OpUpdate diff => ret (Some (Update diff s))
  | OpUpdateCluster peers =>
      let* r := updateCluster peers s in ret (Some r.1)
  | OpUpdateLostQuorumTs =>
      let* s' := UpdateLostQuorumTs s in ret (Some s')
  end.

(** The states of a store made by [InitStore] or [NewGossipStore] and
    then used through its operations, each at any clock. *)
Inductive reachable : GossipStoreImpl → Prop :=
| reach_init id0 version st clusterId d c :
    reachable (InitStore id0 version st clusterId d zeroStore c).1
| reach_new id0 version clusterId d c :
    reachable (NewGossipStore id0 version clusterId d c).1
| reach_step s o c s' :
    reachable s → (run o s c).1 = Some s' → reachable s'.

(** A sequence of calls, all at the clock [c] shifted as the calls read it. *)
Fixpoint runs (os : list Op) (s : GossipStoreImpl)
    : Clocked (option GossipStoreImpl) :=
  match os with
  | [] => ret (Some s)
  | o :: os =>
      let* r := run o s in
      match r with Some s' => runs os s' | None => ret None end
  end.

(** ** The loops, part by part *)

(** The body of the loop of [Update] on the node map alone, and on the
    one entry it visits. *)
Definition Update_entry (self id0 : NodeId) (newNodeInfo : NodeInfo)
    (m : NodeInfoMap) : NodeInfoMap :=
  if decide (id0 = self) then m
  else
    match m !! id0 with
    | None => m
    | Some selfValue =>
        if negb (statusValid (Status selfValue)) ||
           Before (LastUpdateTs selfValue) (LastUpdateTs newNodeInfo)
        then <[id0 := set_Status (Status selfValue) newNodeInfo]> m
        else m
    end.

Definition Update_own (self id0 : NodeId) (newNodeInfo : NodeInfo)
    (o : option NodeInfo) : option NodeInfo :=
  if decide (id0 = self) then o
  else
    match o with
    | None => None
    | Some selfValue =>
        if negb (statusValid (Status selfValue)) ||
           Before (LastUpdateTs selfValue) (LastUpdateTs newNodeInfo)
        then Some (set_Status (Status selfValue) newNodeInfo)
        else Some selfValue
    end.

(** The entry [addNodeUnlocked] makes for an id the map lacks, when the
    clock reads [t1] then [t2]. *)
Definition newNodeInfo (id0 : NodeId) (t1 t2 : Time) (status : NodeStatus)
    (quorumMember : bool) (failureDomain : string) : NodeInfo :=
  mkNodeInfo id0 0%N t1 t2 status (Some ∅) quorumMember failureDomain "".

(** The store after the removals and the additions of [updateCluster],
    before the refresh. *)
Definition membership (peers : gmap string NodeUpdate) (s : GossipStoreImpl)
    : Clocked GossipStoreImpl :=
  let s := set_clusterSize (N.of_nat (size peers)) s in
  let removeNodeIds :=
    range (nodeMap s)
      (λ id0 _ l, match peers !! id0 with None => l ++ [id0] | Some _ => l end)
      [] in
  let addNodeIds :=
    range peers
      (λ id0 _ l,
         match nodeMap s !! id0 with None => l ++ [id0] | Some _ => l end)
      [] in
  let s := foldl (λ s nodeId, (removeNodeUnlocked nodeId s).2) s
             removeNodeIds in
  for_each addNodeIds (add_body peers) s.

(** The entry of a peer after the refresh of [updateCluster]. *)
Definition refreshed (update : NodeUpdate) (nodeInfo : NodeInfo) : NodeInfo :=
  set_Addr (upd_Addr update)
    (set_ClusterDomain (upd_ClusterDomain update)
       (set_QuorumMember (upd_QuorumMember update) nodeInfo)).

(** The two halves of the body of the last loop of [updateCluster]: what
    it does to the store and what it does to the counts. *)
Definition refresh_store (peers : gmap string NodeUpdate) (id0 : NodeId)
    (nodeInfo : NodeInfo) (s : GossipStoreImpl) : GossipStoreImpl :=
  match peers !! id0 with
  | Some update =>
      updateClusterDomainsMap (upd_ClusterDomain update) id0
        (set_nodeMap (<[id0 := refreshed update nodeInfo]> (nodeMap s)) s)
  | None => s
  end.

Definition refresh_count (peers : gmap string NodeUpdate) (id0 : NodeId)
    (nodeInfo : NodeInfo) (q : ClusterDomainsQuorumMembersMap)
    : ClusterDomainsQuorumMembersMap :=
  let update := default zeroNodeUpdate (peers !! id0) in
  let nodeInfo :=
    match peers !! id0 with
    | Some _ => refreshed update nodeInfo
    | None => nodeInfo
    end in
  if QuorumMember nodeInfo then
    <[upd_ClusterDomain update :=
        S (default 0 (q !! upd_ClusterDomain update))]> q
  else q.

(** What the last loop of [updateCluster] does to the counts at an id of
    the peer map: the entry it reads has just been refreshed. *)
Definition count_member (peers : gmap string NodeUpdate) (id0 : NodeId)
    (q : ClusterDomainsQuorumMembersMap) : ClusterDomainsQuorumMembersMap :=
  let update := default zeroNodeUpdate (peers !! id0) in
  if upd_QuorumMember update then
    <[upd_ClusterDomain update :=
        S (default 0 (q !! upd_ClusterDomain update))]> q
  else q.

(** The fields of the store that no operation but [InitStore] writes,
    one apart: the cluster size, the node map and the failure-domain map
    are left out. *)
Definition sameIdentity (s s' : GossipStoreImpl) : Prop :=
  id s' = id s ∧ GenNumber s' = GenNumber s ∧ selfCorrect s' = selfCorrect s ∧
  GossipVersion s' = GossipVersion s ∧ ClusterId s' = ClusterId s ∧
  lostQuorumTs s' = lostQuorumTs s.

(** ** Reading the maps *)

(** [failureDomainsMap[d][i]], with the presence flag of the inner lookup;
    a nil map and a missing bucket hold nothing. *)
Definition bucket (f : option (gmap string nodeIdMap)) (d : string)
    : option nodeIdMap :=
  match f with Some fdm => fdm !! d | None => None end.

Definition bucketEntry (f : option (gmap string nodeIdMap)) (d : string)
    (i : NodeId) : option string :=
  match bucket f d with Some l => l !! i | None => None end.

(** Node [i] is in the bucket of domain [d]. *)
Definition inBucket (s : GossipStoreImpl) (d : string) (i : NodeId) : Prop :=
  is_Some (bucketEntry (failureDomainsMap s) d i).

(** No node is in two buckets. *)
Definition oneBucket (s : GossipStoreImpl) : Prop :=
  ∀ d1 d2 i, inBucket s d1 i → inBucket s d2 i → d1 = d2.

(** [len(m)] and [_, ok := m[k]] on a map that may be nil: the nil map
    reads as an empty one. *)
Definition len (m : StoreMap) : nat :=
  match m with Some vm => size vm | None => 0 end.

Definition hasKey (m : StoreMap) (k : StoreKey) : Prop :=
  match m with Some vm => is_Some (vm !! k) | None => False end.

Definition index (m : StoreMap) (k : StoreKey) : StoreValue :=
  match m with Some vm => default VNil (vm !! k) | None => VNil end.

(** ** Sample stores *)

(** A clock that reads 100, 101, 102, ... *)
Definition clock100 : Clock := λ n, (100 + Z.of_nat n)%Z.

(** A later clock, reading 200, 201, 202, ... *)
Definition clock200 : Clock := λ n, (200 + Z.of_nat n)%Z.

(** The store of node A of cluster C in domain d1, as
    [NewGossipStore] makes it at [clock100]. *)
Definition storeA : GossipStoreImpl :=
  (NewGossipStore "A" "v1" "C" "d1" clock100).1.

(** [storeA] after [AddNode("B", DOWN, true, "d1")]. *)
Definition storeAB : GossipStoreImpl :=
  (AddNode "B" NODE_STATUS_DOWN true "d1" storeA clock100).1.

(** What a peer says of B: up, written at 200, with k = 7. *)
Definition remoteB : NodeInfo :=
  mkNodeInfo "B" 3%N 200%Z 0%Z NODE_STATUS_UP
    (Some (<["k" := VInt 7]> ∅)) false "d9" "10.0.0.2".

(** What a peer says of B when it holds no data for it: the payload map
    is nil. *)
Definition remoteB_nil : NodeInfo :=
  mkNodeInfo "B" 3%N 200%Z 0%Z NODE_STATUS_UP None false "d1" "".

(** [storeA] after [AddNode("B", UP, true, "d1")] and the merge of
    [remoteB_nil]. *)
Definition storeAB_nil : GossipStoreImpl :=
  Update (<["B" := remoteB_nil]> ∅)
    (AddNode "B" NODE_STATUS_UP true "d1" storeA clock100).1.

(** [storeA] after [RemoveNode("A")] and [updateSelfTs()]. *)
Definition storeA_reinserted : GossipStoreImpl :=
  (updateSelfTs (RemoveNode "A" storeA).2 clock100).1.

(** A peer map without the self id of [storeA]. *)
Definition peersB : gmap string NodeUpdate :=
  <["B" := mkNodeUpdate "10.0.0.2" true "d1"]> ∅.

(** A and B, both in domain d1. *)
Definition peersAB : gmap string NodeUpdate :=
  <["A" := mkNodeUpdate "10.0.0.1" true "d1"]>
    (<["B" := mkNodeUpdate "10.0.0.2" true "d1"]> ∅).


(** A in domain d1 and a new node C in domain d2. *)
Definition peersAC : gmap string NodeUpdate :=
  <["A" := mkNodeUpdate "10.0.0.1" true "d1"]>
    (<["C" := mkNodeUpdate "10.0.0.3" true "d2"]> ∅).

(** [storeA] after [updateCluster(peersAB)] and then
    [AddNode("B", UP, true, "d2")]. *)
Definition storeAB_moved : GossipStoreImpl :=
  (AddNode "B" NODE_STATUS_UP true "d2"
     (updateCluster peersAB storeA clock100).1.1 clock100).1.

(** The quorum members the peer map has in a domain. *)
Definition quorumMembersIn (peers : gmap string NodeUpdate) (d : string)
    : nat :=
  size (filter (λ kv : string * NodeUpdate,
                  upd_QuorumMember kv.2 = true ∧ upd_ClusterDomain kv.2 = d)
          peers).

(** The self entry is sound: it is in the node map, it carries the self
    id, and its payload map is not nil. *)
Definition selfSound (s : GossipStoreImpl) : Prop :=
  ∃ ni vm, nodeMap s !! id s = Some ni ∧ Id ni = id s ∧ Value ni = Some vm.

(** The operations that do not delete the entry of [self]. *)
Definition keepsSelf (self : NodeId) (o : Op) : Prop :=
  o ≠ OpRemoveNode self ∧
  ∀ peers, o = OpUpdateCluster peers → is_Some (peers !! self).

(** ** Loops over maps *)

Section range_lemmas.
Context {V M X : Type}.
Variable get : M → string → X.
Variable g : string → V → M → M.
Variable h : string → V → X → X.
Hypothesis g_own : ∀ k v m, get (g k v m) k = h k v (get m k).
Hypothesis g_other : ∀ k v m i, i ≠ k → get (g k v m) i = get m i.

(** A loop whose body changes, of what [get] reads, the part of the key it
    visits, from that part alone, acts on every key separately. *)
Lemma foldl_get (l : list (string * V)) :
  NoDup l.*1 →
  ∀ (m : M) (i : string),
    get (foldl (λ acc kv, g kv.1 kv.2 acc) m l) i =
    match (list_to_map l : gmap string V) !! i with
    | Some v => h i v (get m i)
    | None => get m i
    end.
Proof.
  induction l as [|[k v] l IH]; intros Hnd m i; simpl.
  - by rewrite lookup_empty.
  - apply NoDup_cons in Hnd as [Hk Hnd]. rewrite (IH Hnd).
    destruct (decide (k = i)) as [->|Hne].
    + rewrite lookup_insert_eq.
      rewrite (not_elem_of_list_to_map_1 l i Hk). apply g_own.
    + rewrite lookup_insert_ne by done. rewrite !g_other by done. done.
Qed.

(** The order of the visit does not matter. *)
Lemma foldl_get_any_order (m0 : gmap string V) (l : list (string * V)) :
  l ≡ₚ map_to_list m0 →
  ∀ (m : M) (i : string),
    get (foldl (λ acc kv, g kv.1 kv.2 acc) m l) i =
    match m0 !! i with Some v => h i v (get m i) | None => get m i end.
Proof.
  intros Hp m i.
  assert (Hnd : NoDup l.*1).
  { rewrite Hp. apply NoDup_fst_map_to_list. }
  rewrite foldl_get by done.
  assert (Hl : (list_to_map l : gmap string V) = m0).
  { rewrite <- (list_to_map_to_list m0).
    apply list_to_map_proper; [done|]. exact Hp. }
  by rewrite Hl.
Qed.

Lemma range_get (m0 : gmap string V) (m : M) (i : string) :
  get (range m0 g m) i =
  match m0 !! i with Some v => h i v (get m i) | None => get m i end.
Proof.
  unfold range. rewrite foldl_get by apply NoDup_fst_map_to_list.
  by rewrite list_to_map_to_list.
Qed.

End range_lemmas.

(** The same for a loop that fills or updates a map. *)
Lemma range_pointwise {V A} (g : string → V → gmap string A → gmap string A)
    (h : string → V → option A → option A) :
  (∀ k v m, g k v m !! k = h k v (m !! k)) →
  (∀ k v m i, i ≠ k → g k v m !! i = m !! i) →
  ∀ (m0 : gmap string V) (m : gmap string A) (i : string),
    range m0 g m !! i =
    match m0 !! i with Some v => h i v (m !! i) | None => m !! i end.
Proof.
  intros Hown Hother m0 m i.
  by apply (range_get (λ (m : gmap string A) i, m !! i) g h).
Qed.

(** A loop over pairs that treats the two halves separately. *)
Lemma foldl_pair {S Q B} (f : S * Q → B → S * Q) (f1 : S → B → S)
    (f2 : Q → B → Q) (l : list B) :
  (∀ s q b, f (s, q) b = (f1 s b, f2 q b)) →
  ∀ s q, foldl f (s, q) l = (foldl f1 s l, foldl f2 q l).
Proof.
  intros Hf. induction l as [|b l IH]; intros s q; simpl; [done|].
  by rewrite Hf, IH.
Qed.

(** A loop that changes nothing at any step changes nothing. *)
Lemma foldl_fixed {S B} (f : S → B → S) (l : list B) (s : S) :
  (∀ b, b ∈ l → f s b = s) → foldl f s l = s.
Proof.
  induction l as [|b l IH]; intros Hf; simpl; [done|].
  rewrite Hf by left. apply IH. intros b' Hb'. apply Hf. by right.
Qed.

(** A loop whose body keeps a property keeps it. *)
Lemma foldl_preserves {S B} (P : S → Prop) (f : S → B → S) (l : list B) :
  (∀ s b, b ∈ l → P s → P (f s b)) → ∀ s, P s → P (foldl f s l).
Proof.
  induction l as [|b l IH]; intros Hf s Hs; simpl; [done|].
  apply IH.
  - intros s' b' Hb'. apply Hf. by right.
  - apply Hf; [by left|done].
Qed.

Lemma range_preserves {V S} (P : S → Prop) (m : gmap string V)
    (body : string → V → S → S) :
  (∀ k v s, m !! k = Some v → P s → P (body k v s)) →
  ∀ s, P s → P (range m body s).
Proof.
  intros Hb s Hs. unfold range. apply foldl_preserves; [|done].
  intros s' [k v] Hin%elem_of_map_to_list. by apply Hb.
Qed.

(** ** The snapshot *)

Lemma getLocalState_nodeMap (s : GossipStoreImpl) :
  GetLocalState s = nodeMap s.
Proof.
  apply map_eq; intros i. unfold GetLocalState, getLocalState.
  rewrite (range_pointwise _ (λ _ v _, Some v)).
  - rewrite lookup_empty. by destruct (nodeMap s !! i).
  - intros. apply lookup_insert_eq.
  - intros. by apply lookup_insert_ne.
Qed.

(** ** The merge *)

Lemma Update_body_entry id0 n s :
  Update_body id0 n s = set_nodeMap (Update_entry (id s) id0 n (nodeMap s)) s.
Proof.
  unfold Update_body, Update_entry. destruct s as [i g m sc gv ci cs f l]; simpl.
  destruct (decide (id0 = i)); [done|].
  destruct (m !! id0) as [sv|]; [|done].
  by destruct (negb _ || _).
Qed.

Lemma Update_fold (l : list (string * NodeInfo)) (s : GossipStoreImpl) :
  foldl (λ acc kv, Update_body kv.1 kv.2 acc) s l =
  set_nodeMap
    (foldl (λ acc kv, Update_entry (id s) kv.1 kv.2 acc) (nodeMap s) l) s.
Proof.
  revert s. induction l as [|[k v] l IH]; intros s; simpl.
  - by destruct s.
  - rewrite IH, Update_body_entry. by destruct s.
Qed.

Lemma Update_nodeMap diff s i :
  nodeMap (Update diff s) !! i =
  match diff !! i with
  | Some n => Update_own (id s) i n (nodeMap s !! i)
  | None => nodeMap s !! i
  end.
Proof.
  unfold Update, range. rewrite Update_fold. simpl.
  apply (range_pointwise (Update_entry (id s)) (Update_own (id s))).
  - intros k v m. unfold Update_entry, Update_own.
    destruct (decide (k = id s)); [done|].
    destruct (m !! k) as [sv|] eqn:E; [|done].
    destruct (negb _ || _); [apply lookup_insert_eq|done].
  - intros k v m j Hne. unfold Update_entry.
    destruct (decide (k = id s)); [done|].
    destruct (m !! k) as [sv|]; [|done].
    destruct (negb _ || _); [by apply lookup_insert_ne|done].
Qed.

Lemma Update_frame diff s :
  Update diff s = set_nodeMap (nodeMap (Update diff s)) s.
Proof. unfold Update, range. rewrite Update_fold. by destruct s. Qed.

(** The merge neither adds nor drops an id. *)
Lemma Update_merge_entry_dom diff s j :
  is_Some (nodeMap (Update diff s) !! j) ↔ is_Some (nodeMap s !! j).
Proof.
  rewrite Update_nodeMap. destruct (diff !! j) as [n|]; [|done].
  unfold Update_own. destruct (decide (j = id s)); [done|].
  destruct (nodeMap s !! j) as [sv|]; [|done].
  destruct (negb _ || _); split; eauto.
Qed.

(** C2. [Update(diff)] treats a pair [(i, remote)] of [diff] as follows.
    When [i] is the self id or is not in the node map, the entry of [i] is
    as it was. Otherwise, with [local] the stored entry, [remote] is adopted
    exactly when [local]'s status is not valid or [local] was written
    strictly before [remote]; the adopted entry has every field of
    [remote] but the status, which is [local]'s, and without adoption the
    entry stays [local]. The merge adds no id to the node map and changes
    nothing else in the store. *)
Theorem Update_merge_rule (s : GossipStoreImpl) (diff : NodeInfoMap)
    (i : NodeId) (remote : NodeInfo) :
  diff !! i = Some remote →
  ((i = id s ∨ nodeMap s !! i = None) →
     nodeMap (Update diff s) !! i = nodeMap s !! i) ∧
  (∀ local, i ≠ id s → nodeMap s !! i = Some local →
     let adopt := statusValid (Status local) = false ∨
                  (LastUpdateTs local < LastUpdateTs remote)%Z in
     (adopt →
        nodeMap (Update diff s) !! i =
        Some (mkNodeInfo (Id remote) (types.GenNumber remote)
                (LastUpdateTs remote) (WaitForGenUpdateTs remote)
                (Status local) (Value remote) (QuorumMember remote)
                (ClusterDomain remote) (Addr remote))) ∧
     (¬ adopt → nodeMap (Update diff s) !! i = Some local)) ∧
  (∀ j, is_Some (nodeMap (Update diff s) !! j) ↔ is_Some (nodeMap s !! j)) ∧
  Update diff s = set_nodeMap (nodeMap (Update diff s)) s.
Proof.
  intros Hd. split; [|split; [|split]].
  - intros Hi. rewrite Update_nodeMap, Hd. unfold Update_own.
    destruct (decide (i = id s)); [done|].
    destruct Hi as [? | ->]; done.
  - intros local Hne Hl adopt. rewrite Update_nodeMap, Hd, Hl.
    unfold Update_own. rewrite decide_False by done.
    unfold adopt, Before. split.
    + intros [Hv|Hlt].
      * by rewrite Hv.
      * rewrite (bool_decide_eq_true_2 _ Hlt), orb_true_r. done.
    + intros Hn. destruct (statusValid (Status local)) eqn:Hv; simpl.
      * rewrite bool_decide_eq_false_2; [done|]. intros ?. apply Hn. by right.
      * exfalso. apply Hn. by left.
  - intros j. apply Update_merge_entry_dom.
  - apply Update_frame.
Qed.

Lemma Update_merge_rule_witness :
  let diff : NodeInfoMap := <["B" := remoteB]> ∅ in
  nodeMap (Update diff storeAB) !! "B" =
  Some (mkNodeInfo "B" 3%N 200%Z 0%Z NODE_STATUS_DOWN
          (Some (<["k" := VInt 7]> ∅)) false "d9" "10.0.0.2").
Proof.
  intros diff.
  assert (Hd : diff !! "B" = Some remoteB) by reflexivity.
  destruct (Update_merge_rule storeAB diff "B" remoteB Hd) as (_ & H & _).
  assert (Hl : nodeMap storeAB !! "B" =
    Some (mkNodeInfo "B" 0%N 100%Z 101%Z NODE_STATUS_DOWN (Some ∅) true "d1" ""))
    by reflexivity.
  assert (Hne : "B" ≠ id storeAB) by (simpl; discriminate).
  destruct (H _ Hne Hl) as [Ha _].
  apply Ha. right. simpl. lia.
Defined.

(** ** The failure-domain map *)

Lemma leaveOthers_lookup (F : gmap string nodeIdMap) d j fd :
  range F (leaveOthers_body d j) F !! fd =
  (λ l, if decide (fd = d) then l else delete j l) <$> F !! fd.
Proof.
  rewrite (range_pointwise (leaveOthers_body d j)
             (λ k l cur, if decide (k = d) then cur
                         else match l !! j with
                              | Some _ => Some (delete j l)
                              | None => cur
                              end)).
  - destruct (F !! fd) as [l|] eqn:E; [|done]. simpl.
    destruct (decide (fd = d)); [done|].
    destruct (l !! j) eqn:Ej; [done|]. by rewrite delete_id.
  - intros k v m. unfold leaveOthers_body.
    destruct (decide (k = d)); [done|].
    destruct (v !! j); [apply lookup_insert_eq|done].
  - intros k v m i Hne. unfold leaveOthers_body.
    destruct (decide (k = d)); [done|].
    destruct (v !! j); [by apply lookup_insert_ne|done].
Qed.

(** The buckets after [reindex d j]. *)
Lemma reindex_lookup d j f fd :
  reindex d j f !! fd =
  if decide (fd = d) then
    Some (match bucket f d with
          | Some l => match l !! j with Some _ => l | None => <[j := ""]> l end
          | None => <[j := ""]> ∅
          end)
  else delete j <$> bucket f fd.
Proof.
  unfold reindex.
  set (F := match f with Some f0 => f0 | None => ∅ end).
  assert (HF : ∀ x, bucket f x = F !! x).
  { intros x. unfold F. destruct f; simpl; [done|]. by rewrite lookup_empty. }
  rewrite !HF.
  destruct (decide (fd = d)) as [->|Hne].
  - rewrite (leaveOthers_lookup F d j d).
    destruct (F !! d) as [l|] eqn:E; simpl.
    + rewrite decide_True by done. destruct (l !! j) eqn:Ej.
      * rewrite leaveOthers_lookup, E. simpl. by rewrite decide_True.
      * by rewrite lookup_insert_eq.
    + by rewrite lookup_insert_eq.
  - rewrite (leaveOthers_lookup F d j d).
    assert (Hfd : range F (leaveOthers_body d j) F !! fd = delete j <$> F !! fd).
    { rewrite leaveOthers_lookup. destruct (F !! fd); simpl; [|done].
      by rewrite decide_False. }
    destruct (F !! d) as [l|] eqn:E; simpl.
    + rewrite decide_True by done.
      destruct (l !! j); [done|]. by rewrite lookup_insert_ne.
    + by rewrite lookup_insert_ne.
Qed.

(** Who is where after [reindex d j]: [j] is in the bucket of [d] and in
    no other, and the other nodes stay where they were. *)
Lemma reindex_bucketEntry d j f fd i :
  bucketEntry (Some (reindex d j f)) fd i =
  if decide (i = j) then
    if decide (fd = d) then Some (default "" (bucketEntry f fd i)) else None
  else bucketEntry f fd i.
Proof.
  unfold bucketEntry. simpl. rewrite reindex_lookup.
  destruct (decide (fd = d)) as [->|Hfd]; simpl.
  - destruct (bucket f d) as [l|] eqn:E; simpl.
    + destruct (decide (i = j)) as [->|Hij].
      * destruct (l !! j) eqn:Ej; [by rewrite Ej|by rewrite lookup_insert_eq].
      * destruct (l !! j); [done|]. by rewrite lookup_insert_ne.
    + destruct (decide (i = j)) as [->|Hij].
      * by rewrite lookup_insert_eq.
      * by rewrite lookup_insert_ne, lookup_empty.
  - destruct (bucket f fd) as [l|]; simpl.
    + destruct (decide (i = j)) as [->|Hij].
      * apply lookup_delete_eq.
      * by apply lookup_delete_ne.
    + by destruct (decide (i = j)).
Qed.

(** Re-indexing a node that is in the bucket of [d] and in no other one
    changes nothing. *)
Lemma reindex_id d j F :
  is_Some (bucketEntry (Some F) d j) →
  (∀ fd, fd ≠ d → bucketEntry (Some F) fd j = None) →
  reindex d j (Some F) = F.
Proof.
  unfold bucketEntry. simpl. intros [x Hx] Hother.
  apply map_eq; intros fd. rewrite reindex_lookup. simpl.
  destruct (decide (fd = d)) as [->|Hfd].
  - destruct (F !! d) as [l|]; [|done]. simpl in Hx. by rewrite Hx.
  - specialize (Hother fd Hfd).
    destruct (F !! fd) as [l|]; [|done]. simpl in *. by rewrite delete_id.
Qed.

Lemma updateClusterDomainsMap_oneBucket d j s :
  oneBucket s → oneBucket (updateClusterDomainsMap d j s).
Proof.
  intros Hs d1 d2 i. unfold inBucket. simpl.
  rewrite !reindex_bucketEntry.
  destruct (decide (i = j)) as [->|Hij].
  - destruct (decide (d1 = d)), (decide (d2 = d)); intros [] []; congruence.
  - apply Hs.
Qed.

(** ** The phases of [updateCluster] *)

(** The ids a first loop collects: the keys that fail the lookup. *)
Lemma collect_filter {V X} (t : string → option X) (l : list (string * V))
    (acc : list string) :
  foldl (λ l kv, match t kv.1 with None => l ++ [kv.1] | Some _ => l end)
    acc l =
  acc ++ filter (λ i, t i = None) l.*1.
Proof.
  revert acc. induction l as [|[k v] l IH]; intros acc; simpl.
  - by rewrite app_nil_r.
  - rewrite IH. rewrite filter_cons. simpl.
    destruct (t k) eqn:E.
    + by rewrite decide_False by done.
    + rewrite decide_True by done. by rewrite <- app_assoc.
Qed.

Lemma collect_elem_of {V X} (m : gmap string V) (t : string → option X) i :
  i ∈ range m
        (λ id0 _ l, match t id0 with None => l ++ [id0] | Some _ => l end) []
  ↔ is_Some (m !! i) ∧ t i = None.
Proof.
  unfold range.
  rewrite (collect_filter t (map_to_list m) []). simpl.
  rewrite list_elem_of_filter, list_elem_of_fmap. split.
  - intros [Ht [[k v] [-> Hin]]]. apply elem_of_map_to_list in Hin. eauto.
  - intros [[v Hv] Ht]. split; [done|]. exists (i, v). split; [done|].
    by apply elem_of_map_to_list.
Qed.

Lemma collect_NoDup {V X} (m : gmap string V) (t : string → option X) :
  NoDup (range m
           (λ id0 _ l, match t id0 with None => l ++ [id0] | Some _ => l end)
           []).
Proof.
  unfold range. rewrite (collect_filter t (map_to_list m) []). simpl.
  apply NoDup_filter, NoDup_fst_map_to_list.
Qed.

Lemma removeNodeUnlocked_store i s :
  (removeNodeUnlocked i s).2 = set_nodeMap (delete i (nodeMap s)) s.
Proof.
  unfold removeNodeUnlocked. destruct (nodeMap s !! i) eqn:E; simpl; [done|].
  rewrite delete_id by done. by destruct s.
Qed.

(** The removals keep the rest of the store and drop the listed ids. *)
Lemma remove_loop (l : list string) (s : GossipStoreImpl) :
  let s' := foldl (λ s nodeId, (removeNodeUnlocked nodeId s).2) s l in
  s' = set_nodeMap (nodeMap s') s ∧
  ∀ i, nodeMap s' !! i = if decide (i ∈ l) then None else nodeMap s !! i.
Proof.
  revert s. induction l as [|k l IH]; intros s; simpl.
  - split; [by destruct s|]. intros i.
    destruct (decide (i ∈ [])) as [H|]; [by apply not_elem_of_nil in H|done].
  - destruct (IH (removeNodeUnlocked k s).2) as [Hf Hl].
    rewrite removeNodeUnlocked_store in *. split.
    + rewrite Hf at 1. by destruct s.
    + intros i. rewrite Hl. simpl.
      destruct (decide (i = k)) as [->|Hne].
      * rewrite lookup_delete_eq. rewrite (decide_True (P := k ∈ k :: l)) by left.
        by destruct (decide (k ∈ l)).
      * rewrite lookup_delete_ne by done.
        destruct (decide (i ∈ l)).
        -- by rewrite decide_True by (by right).
        -- rewrite decide_False; [done|]. by intros [?|?]%elem_of_cons.
Qed.

Lemma addNodeUnlocked_new i st q d s c :
  nodeMap s !! i = None →
  addNodeUnlocked i st q d s c =
  (set_nodeMap (<[i := newNodeInfo i (c 0) (c 1) st q d]> (nodeMap s)) s,
   λ n, c (S (S n))).
Proof. intros H. unfold addNodeUnlocked. by rewrite H. Qed.

Lemma addNodeUnlocked_old i st q d s c ni :
  nodeMap s !! i = Some ni →
  addNodeUnlocked i st q d s c =
  (set_nodeMap
     (<[i := set_ClusterDomain d
               (set_QuorumMember q (set_LastUpdateTs (c 0) (set_Status st ni)))]>
        (nodeMap s)) s,
   λ n, c (S n)).
Proof. intros H. unfold addNodeUnlocked. by rewrite H. Qed.

(** The additions keep the rest of the store and the other entries, and
    give every listed id a fresh entry stamped with two readings. *)
Lemma add_loop peers (l : list string) :
  ∀ (s : GossipStoreImpl) (c : Clock),
    NoDup l → (∀ i, i ∈ l → nodeMap s !! i = None) →
    let s' := (for_each l (add_body peers) s c).1 in
    s' = set_nodeMap (nodeMap s') s ∧
    (∀ i, i ∉ l → nodeMap s' !! i = nodeMap s !! i) ∧
    (∀ i, i ∈ l → ∃ t1 t2, reading c t1 ∧ reading c t2 ∧
       nodeMap s' !! i =
       Some (newNodeInfo i t1 t2 NODE_STATUS_DOWN
               (upd_QuorumMember (default zeroNodeUpdate (peers !! i)))
               (upd_ClusterDomain (default zeroNodeUpdate (peers !! i))))).
Proof.
  induction l as [|k l IH]; intros s c Hnd Habs; simpl.
  - split; [by destruct s|]. split; [done|]. by intros i ?%not_elem_of_nil.
  - apply NoDup_cons in Hnd as [Hk Hnd].
    set (u := default zeroNodeUpdate (peers !! k)).
    set (s1 := set_nodeMap
                 (<[k := newNodeInfo k (c 0) (c 1) NODE_STATUS_DOWN
                          (upd_QuorumMember u) (upd_ClusterDomain u)]>
                    (nodeMap s)) s).
    set (c1 := λ n, c (S (S n))).
    assert (Hstep : add_body peers k s c = (s1, c1)).
    { unfold add_body. apply addNodeUnlocked_new, Habs. left. }
    unfold bind. rewrite Hstep.
    destruct (IH s1 c1 Hnd) as (Hf & Hout & Hin).
    { intros i Hi. unfold s1. simpl. rewrite lookup_insert_ne.
      - apply Habs. by right.
      - intros ->. done. }
    split; [|split].
    + rewrite Hf at 1. done.
    + intros i Hi. rewrite Hout.
      * unfold s1. simpl. rewrite lookup_insert_ne; [done|].
        intros ->. apply Hi. left.
      * intros ?. apply Hi. by right.
    + intros i [->|Hi]%elem_of_cons.
      * exists (c 0), (c 1). split; [by exists 0|]. split; [by exists 1|].
        rewrite Hout by done. unfold s1. simpl. by rewrite lookup_insert_eq.
      * destruct (Hin i Hi) as (t1 & t2 & [n1 ->] & [n2 ->] & Hl).
        exists (c (S (S n1))), (c (S (S n2))).
        split; [by eexists|]. split; [by eexists|]. done.
Qed.

Lemma updateCluster_membership peers s c :
  (updateCluster peers s c).1 =
  range (nodeMap (membership peers s c).1) (refresh_body peers)
    ((membership peers s c).1, ∅).
Proof.
  unfold updateCluster, membership, bind.
  by destruct (for_each _ _ _ c).
Qed.

(** After the removals and the additions the node map has the ids of the
    peer map: the entries it had for them, and fresh ones for the others. *)
Lemma membership_spec peers s c :
  let s3 := (membership peers s c).1 in
  s3 = set_nodeMap (nodeMap s3) (set_clusterSize (N.of_nat (size peers)) s) ∧
  ∀ i,
    match peers !! i with
    | None => nodeMap s3 !! i = None
    | Some u =>
        match nodeMap s !! i with
        | Some ni => nodeMap s3 !! i = Some ni
        | None =>
            ∃ t1 t2, reading c t1 ∧ reading c t2 ∧
              nodeMap s3 !! i =
              Some (newNodeInfo i t1 t2 NODE_STATUS_DOWN (upd_QuorumMember u)
                      (upd_ClusterDomain u))
        end
    end.
Proof.
  unfold membership.
  set (s0 := set_clusterSize (N.of_nat (size peers)) s).
  set (rm := range (nodeMap s0) _ []). set (ad := range peers _ []).
  set (s2 := foldl _ s0 rm).
  assert (Hrm : ∀ i, i ∈ rm ↔ is_Some (nodeMap s !! i) ∧ peers !! i = None).
  { intros i. apply (collect_elem_of (nodeMap s0) (λ i, peers !! i)). }
  assert (Had : ∀ i, i ∈ ad ↔ is_Some (peers !! i) ∧ nodeMap s !! i = None).
  { intros i. apply (collect_elem_of peers (λ i, nodeMap s0 !! i)). }
  destruct (remove_loop rm s0) as [Hf2 Hl2]. fold s2 in Hf2, Hl2.
  destruct (add_loop peers ad s2 c) as (Hf3 & Hout & Hin).
  { apply (collect_NoDup peers (λ i, nodeMap s0 !! i)). }
  { intros i [_ Hi]%Had. rewrite Hl2. by destruct (decide (i ∈ rm)). }
  cbv zeta in Hf3, Hout, Hin. simpl. split.
  - rewrite Hf3 at 1. rewrite Hf2. done.
  - intros i. destruct (peers !! i) as [u|] eqn:Ep.
    + destruct (nodeMap s !! i) as [ni|] eqn:En.
      * rewrite Hout, Hl2.
        -- rewrite decide_False; [done|]. intros [_ ?]%Hrm. congruence.
        -- intros [_ ?]%Had. congruence.
      * destruct (Hin i) as (t1 & t2 & H1 & H2 & Hl).
        { apply Had. rewrite Ep. eauto. }
        rewrite Ep in Hl. eauto.
    + rewrite Hout, Hl2.
      * destruct (decide (i ∈ rm)); [done|].
        destruct (nodeMap s !! i) eqn:En; [|done].
        exfalso. apply n, Hrm. rewrite En. eauto.
      * intros [[? ?] _]%Had. congruence.
Qed.

Lemma refresh_body_split peers i ni s q :
  refresh_body peers i ni (s, q) =
  (refresh_store peers i ni s, refresh_count peers i ni q).
Proof.
  unfold refresh_body, refresh_store, refresh_count, refreshed.
  destruct (peers !! i) as [u|]; simpl.
  - by destruct (upd_QuorumMember u).
  - by destruct (QuorumMember ni).
Qed.

Lemma refresh_loop_split peers (m : NodeInfoMap) s q :
  range m (refresh_body peers) (s, q) =
  (range m (refresh_store peers) s, range m (refresh_count peers) q).
Proof.
  unfold range.
  apply (foldl_pair _ (λ s kv, refresh_store peers kv.1 kv.2 s)
           (λ q kv, refresh_count peers kv.1 kv.2 q)).
  intros. apply refresh_body_split.
Qed.

Lemma refresh_store_sameIdentity peers i ni s0 s :
  sameIdentity s0 s ∧ clusterSize s = clusterSize s0 →
  sameIdentity s0 (refresh_store peers i ni s) ∧
  clusterSize (refresh_store peers i ni s) = clusterSize s0.
Proof. unfold refresh_store, sameIdentity. by destruct (peers !! i). Qed.

Lemma refresh_store_nodeMap peers (m : NodeInfoMap) s i :
  nodeMap (range m (refresh_store peers) s) !! i =
  match m !! i with
  | Some ni =>
      match peers !! i with
      | Some u => Some (refreshed u ni)
      | None => nodeMap s !! i
      end
  | None => nodeMap s !! i
  end.
Proof.
  apply (range_get (λ s i, nodeMap s !! i) (refresh_store peers)
           (λ i ni o, match peers !! i with
                      | Some u => Some (refreshed u ni)
                      | None => o
                      end)).
  - intros k v s'. unfold refresh_store.
    destruct (peers !! k); simpl; [apply lookup_insert_eq|done].
  - intros k v s' j Hne. unfold refresh_store.
    destruct (peers !! k); simpl; [by apply lookup_insert_ne|done].
Qed.

Lemma refresh_store_bucketEntry peers (m : NodeInfoMap) s fd i :
  bucketEntry (failureDomainsMap (range m (refresh_store peers) s)) fd i =
  match m !! i with
  | Some _ =>
      match peers !! i with
      | Some u =>
          if decide (fd = upd_ClusterDomain u)
          then Some (default "" (bucketEntry (failureDomainsMap s) fd i))
          else None
      | None => bucketEntry (failureDomainsMap s) fd i
      end
  | None => bucketEntry (failureDomainsMap s) fd i
  end.
Proof.
  apply (range_get (λ s i, bucketEntry (failureDomainsMap s) fd i)
           (refresh_store peers)
           (λ i (_ : NodeInfo) o,
              match peers !! i with
              | Some u =>
                  if decide (fd = upd_ClusterDomain u)
                  then Some (default "" o) else None
              | None => o
              end)).
  - intros k v s'. unfold refresh_store.
    destruct (peers !! k) as [u|]; [|done]. simpl.
    rewrite reindex_bucketEntry. by rewrite decide_True.
  - intros k v s' j Hne. unfold refresh_store.
    destruct (peers !! k) as [u|]; [|done]. simpl.
    rewrite reindex_bucketEntry. by rewrite decide_False.
Qed.

(** ** What [updateCluster] leaves *)

(** The node map: the ids of the peer map, each with the entry it had, or
    a fresh one, refreshed from the peer map. *)
Lemma updateCluster_nodeMap peers s c i :
  let s' := (updateCluster peers s c).1.1 in
  match peers !! i with
  | None => nodeMap s' !! i = None
  | Some u =>
      match nodeMap s !! i with
      | Some ni => nodeMap s' !! i = Some (refreshed u ni)
      | None =>
          ∃ t1 t2, reading c t1 ∧ reading c t2 ∧
            nodeMap s' !! i =
            Some (refreshed u
                    (newNodeInfo i t1 t2 NODE_STATUS_DOWN (upd_QuorumMember u)
                       (upd_ClusterDomain u)))
      end
  end.
Proof.
  simpl. rewrite updateCluster_membership, refresh_loop_split. simpl.
  rewrite refresh_store_nodeMap.
  destruct (membership_spec peers s c) as [_ Hl]. specialize (Hl i).
  simpl in Hl. destruct (peers !! i) as [u|].
  - destruct (nodeMap s !! i) as [ni|].
    + by rewrite Hl.
    + destruct Hl as (t1 & t2 & H1 & H2 & Hl). exists t1, t2.
      by rewrite Hl.
  - by rewrite Hl.
Qed.

Lemma updateCluster_dom peers s c :
  dom (nodeMap (updateCluster peers s c).1.1) = dom peers.
Proof.
  apply set_eq; intros i. rewrite !elem_of_dom.
  pose proof (updateCluster_nodeMap peers s c i) as H. simpl in H.
  destruct (peers !! i) as [u|].
  - destruct (nodeMap s !! i) as [ni|].
    + rewrite H. split; eauto.
    + destruct H as (t1 & t2 & _ & _ & ->). split; eauto.
  - rewrite H. split; intros [? ?]; done.
Qed.

Lemma updateCluster_frame peers s c :
  let s' := (updateCluster peers s c).1.1 in
  sameIdentity s s' ∧ clusterSize s' = N.of_nat (size peers).
Proof.
  simpl. rewrite updateCluster_membership, refresh_loop_split. simpl.
  destruct (membership_spec peers s c) as [Hf _]. simpl in Hf.
  set (s3 := (membership peers s c).1) in *.
  assert (H3 : sameIdentity s s3 ∧ clusterSize s3 = N.of_nat (size peers)).
  { rewrite Hf. by unfold sameIdentity. }
  revert H3. generalize (N.of_nat (size peers)). intros n H3.
  apply (range_preserves
           (λ s', sameIdentity s s' ∧ clusterSize s' = n)); [|done].
  intros k v s' _ [Hs Hc]. unfold refresh_store.
  by destruct (peers !! k).
Qed.

(** The failure-domain map: every id of the peer map is in the bucket of
    the domain the peer map gives it, and in no other; the other ids are
    where they were. *)
Lemma updateCluster_bucketEntry peers s c fd i :
  bucketEntry (failureDomainsMap (updateCluster peers s c).1.1) fd i =
  match peers !! i with
  | Some u =>
      if decide (fd = upd_ClusterDomain u)
      then Some (default "" (bucketEntry (failureDomainsMap s) fd i))
      else None
  | None => bucketEntry (failureDomainsMap s) fd i
  end.
Proof.
  rewrite updateCluster_membership, refresh_loop_split. simpl.
  rewrite refresh_store_bucketEntry.
  destruct (membership_spec peers s c) as [Hf Hl]. specialize (Hl i).
  simpl in Hf, Hl. set (s3 := (membership peers s c).1) in *.
  assert (H3 : failureDomainsMap s3 = failureDomainsMap s) by by rewrite Hf.
  rewrite H3. destruct (peers !! i) as [u|]; [|by destruct (nodeMap s3 !! i)].
  destruct (nodeMap s !! i) as [ni|].
  - by rewrite Hl.
  - destruct Hl as (t1 & t2 & _ & _ & ->). done.
Qed.

Lemma updateCluster_oneBucket peers s c :
  oneBucket s → oneBucket (updateCluster peers s c).1.1.
Proof.
  intros Hs. rewrite updateCluster_membership, refresh_loop_split. simpl.
  destruct (membership_spec peers s c) as [Hf _]. simpl in Hf.
  set (s3 := (membership peers s c).1) in *.
  apply range_preserves.
  - intros k v s' _ Hs'. unfold refresh_store.
    destruct (peers !! k); [|done]. by apply updateClusterDomainsMap_oneBucket.
  - rewrite Hf. exact Hs.
Qed.

(** ** Running [updateCluster] again *)

Lemma store_eta (s : GossipStoreImpl) :
  set_nodeMap (nodeMap s) (set_clusterSize (clusterSize s) s) = s.
Proof. by destruct s. Qed.

Lemma foldl_comm_perm {A B} (f : A → B → A) :
  (∀ a b1 b2, f (f a b1) b2 = f (f a b2) b1) →
  ∀ l1 l2, l1 ≡ₚ l2 → ∀ a, foldl f a l1 = foldl f a l2.
Proof.
  intros Hc l1 l2 Hp.
  induction Hp as [|x l1 l2 _ IH|x y l|l1 l2 l3 _ IH1 _ IH2]; intros a; simpl.
  - done.
  - apply IH.
  - by rewrite Hc.
  - by rewrite IH1.
Qed.

Lemma foldl_keys {V Q} (F : string → V → Q → Q) (G : string → Q → Q)
    (l : list (string * V)) :
  (∀ k v q, (k, v) ∈ l → F k v q = G k q) →
  ∀ q, foldl (λ acc kv, F kv.1 kv.2 acc) q l = foldl (λ acc k, G k acc) q l.*1.
Proof.
  induction l as [|[k v] l IH]; intros HF q; simpl; [done|].
  rewrite HF by left. apply IH. intros k' v' q' Hin. apply HF. by right.
Qed.

Lemma keys_permutation {V W} (m1 : gmap string V) (m2 : gmap string W) :
  dom m1 = dom m2 → (map_to_list m1).*1 ≡ₚ (map_to_list m2).*1.
Proof.
  intros Hd. apply NoDup_Permutation; try apply NoDup_fst_map_to_list.
  intros k. rewrite !list_elem_of_fmap.
  assert (Hk : is_Some (m1 !! k) ↔ is_Some (m2 !! k)).
  { by rewrite <- !elem_of_dom, Hd. }
  split.
  - intros [[k' v] [-> Hin%elem_of_map_to_list]]. simpl in *.
    destruct (proj1 Hk) as [w Hw]; [eauto|].
    exists (k', w). split; [done|]. by apply elem_of_map_to_list.
  - intros [[k' w] [-> Hin%elem_of_map_to_list]]. simpl in *.
    destruct (proj2 Hk) as [v Hv]; [eauto|].
    exists (k', v). split; [done|]. by apply elem_of_map_to_list.
Qed.

Lemma count_member_comm peers k1 k2 q :
  count_member peers k2 (count_member peers k1 q) =
  count_member peers k1 (count_member peers k2 q).
Proof.
  unfold count_member.
  destruct (upd_QuorumMember (default zeroNodeUpdate (peers !! k1))); [|done].
  destruct (upd_QuorumMember (default zeroNodeUpdate (peers !! k2))); [|done].
  set (d1 := upd_ClusterDomain (default zeroNodeUpdate (peers !! k1))).
  set (d2 := upd_ClusterDomain (default zeroNodeUpdate (peers !! k2))).
  destruct (decide (d1 = d2)) as [->|Hne]; [done|].
  rewrite !lookup_insert_ne by done. by apply insert_insert_ne.
Qed.

(** The counts depend on the peer map alone, whatever map with its ids
    the loop ranges over. *)
Lemma refresh_count_keys peers (m : NodeInfoMap) q :
  dom m = dom peers →
  range m (refresh_count peers) q =
  foldl (λ acc k, count_member peers k acc) q (map_to_list peers).*1.
Proof.
  intros Hd. unfold range.
  rewrite (foldl_keys (refresh_count peers) (count_member peers)).
  - apply foldl_comm_perm; [|by apply keys_permutation].
    intros. apply count_member_comm.
  - intros k v q' Hin%elem_of_map_to_list.
    assert (Hk : is_Some (peers !! k)).
    { rewrite <- elem_of_dom, <- Hd, elem_of_dom. eauto. }
    destruct Hk as [u Hu]. unfold refresh_count, count_member.
    by rewrite Hu.
Qed.

Lemma membership_dom peers s c :
  dom (nodeMap (membership peers s c).1) = dom peers.
Proof.
  apply set_eq; intros i. rewrite !elem_of_dom.
  destruct (membership_spec peers s c) as [_ Hl]. specialize (Hl i).
  simpl in Hl. destruct (peers !! i) as [u|].
  - destruct (nodeMap s !! i) as [ni|].
    + rewrite Hl. split; eauto.
    + destruct Hl as (t1 & t2 & _ & _ & ->). split; eauto.
  - rewrite Hl. split; intros [? ?]; done.
Qed.

(** The map [updateCluster] returns is a function of the peer map. *)
Lemma updateCluster_counts peers s c :
  (updateCluster peers s c).1.2 =
  foldl (λ acc k, count_member peers k acc) ∅ (map_to_list peers).*1.
Proof.
  rewrite updateCluster_membership, refresh_loop_split. simpl.
  apply refresh_count_keys, membership_dom.
Qed.

(** A store that [updateCluster] has reconciled with the peer map. *)
Lemma refresh_store_fixed peers s k v :
  nodeMap s !! k = Some v →
  (∀ u, peers !! k = Some u →
     refreshed u v = v ∧
     is_Some (bucketEntry (failureDomainsMap s) (upd_ClusterDomain u) k) ∧
     ∀ fd, fd ≠ upd_ClusterDomain u →
           bucketEntry (failureDomainsMap s) fd k = None) →
  refresh_store peers k v s = s.
Proof.
  intros Hk H. unfold refresh_store. destruct (peers !! k) as [u|]; [|done].
  destruct (H u eq_refl) as (Hr & Hin & Hout). rewrite Hr.
  rewrite insert_id by done. unfold updateClusterDomainsMap. simpl.
  destruct (failureDomainsMap s) as [F|] eqn:EF.
  - rewrite reindex_id by done. destruct s; simpl in *. by subst.
  - by destruct Hin.
Qed.

Lemma refreshed_refreshed u ni : refreshed u (refreshed u ni) = refreshed u ni.
Proof. done. Qed.

Lemma refreshed_new u i t1 t2 st :
  refreshed u (refreshed u (newNodeInfo i t1 t2 st (upd_QuorumMember u)
                              (upd_ClusterDomain u))) =
  refreshed u (newNodeInfo i t1 t2 st (upd_QuorumMember u)
                 (upd_ClusterDomain u)).
Proof. done. Qed.

(** C9. Running [updateCluster(P)] a second time, at any later clock,
    leaves the whole store (node map, failure-domain map and cluster size
    among it) as the first run left it, and returns the same
    [ClusterDomainsQuorumMembersMap] as the first run. *)
Theorem updateCluster_idempotent (peers : gmap string NodeUpdate)
    (s : GossipStoreImpl) (c1 c2 : Clock) :
  (updateCluster peers (updateCluster peers s c1).1.1 c2).1 =
  (updateCluster peers s c1).1.
Proof.
  apply injective_projections; [|by rewrite !updateCluster_counts].
  pose proof (updateCluster_nodeMap peers s c1) as Hn.
  pose proof (updateCluster_bucketEntry peers s c1) as Hb.
  destruct (updateCluster_frame peers s c1) as [_ Hsz].
  simpl in Hn. set (s1 := (updateCluster peers s c1).1.1) in *.
  rewrite updateCluster_membership, refresh_loop_split. simpl.
  destruct (membership_spec peers s1 c2) as [Hf Hl]. simpl in Hf, Hl.
  set (s3 := (membership peers s1 c2).1) in *.
  assert (Hnm : nodeMap s3 = nodeMap s1).
  { apply map_eq; intros i. specialize (Hl i). specialize (Hn i).
    destruct (peers !! i) as [u|]; [|congruence].
    destruct (nodeMap s !! i) as [ni|].
    - rewrite Hn in Hl. congruence.
    - destruct Hn as (t1 & t2 & _ & _ & Hn). rewrite Hn in Hl. congruence. }
  assert (H3 : s3 = s1).
  { rewrite Hf, Hnm, <- Hsz. apply store_eta. }
  rewrite H3. unfold range. apply foldl_fixed.
  intros [k v] Hin%elem_of_map_to_list. simpl.
  apply refresh_store_fixed; [done|]. intros u Hu.
  specialize (Hn k). rewrite Hu in Hn. split; [|split].
  - destruct (nodeMap s !! k) as [ni|].
    + rewrite Hin in Hn. by injection Hn as ->.
    + destruct Hn as (t1 & t2 & _ & _ & Hn). rewrite Hin in Hn.
      by injection Hn as ->.
  - rewrite Hb, Hu. by rewrite decide_True.
  - intros fd Hfd. rewrite Hb, Hu. by rewrite decide_False.
Qed.

(** ** Reads and errors *)

Lemma GetStoreKeyValue_lookup key s i :
  GetStoreKeyValue key s !! i =
  match nodeMap s !! i with
  | Some p =>
      match Value p with
      | Some vm =>
          if statusValid (Status p) &&
             (bool_decide (size vm = 0) || bool_decide (is_Some (vm !! key)))
          then Some (mkNodeValue (Id p) (types.GenNumber p) (LastUpdateTs p)
                       (Status p) (default VNil (vm !! key)))
          else None
      | None => None
      end
  | None => None
  end.
Proof.
  unfold GetStoreKeyValue.
  rewrite (range_pointwise (GetStoreKeyValue_body key)
             (λ _ p o,
                match Value p with
                | Some vm =>
                    if statusValid (Status p) &&
                       (bool_decide (size vm = 0) ||
                        bool_decide (is_Some (vm !! key)))
                    then Some (mkNodeValue (Id p) (types.GenNumber p)
                                 (LastUpdateTs p) (Status p)
                                 (default VNil (vm !! key)))
                    else o
                | None => o
                end)).
  - rewrite lookup_empty. done.
  - intros k v m. unfold GetStoreKeyValue_body.
    destruct (statusValid (Status v)); simpl; [|by destruct (Value v)].
    destruct (Value v) as [vm|]; [|done].
    destruct (_ || _); [apply lookup_insert_eq|done].
  - intros k v m j Hne. unfold GetStoreKeyValue_body.
    destruct (statusValid (Status v)); simpl; [|by destruct (Value v)].
    destruct (Value v) as [vm|]; [|done].
    destruct (_ || _); [by apply lookup_insert_ne|done].
Qed.

Lemma storeAB_nil_reachable : reachable storeAB_nil.
Proof.
  apply (reach_step (AddNode "B" NODE_STATUS_UP true "d1" storeA clock100).1
           (OpUpdate (<["B" := remoteB_nil]> ∅)) clock100);
    [|reflexivity].
  apply (reach_step storeA (OpAddNode "B" NODE_STATUS_UP true "d1") clock100);
    [|reflexivity].
  apply reach_new.
Qed.

(** C8, as stated, fails: in a reachable store, node B has a valid status
    and a payload map of length 0 (the nil map a merge stored), and
    [GetStoreKeyValue] has no entry for it. *)
Lemma GetStoreKeyValue_skips_nil_value :
  ¬ (∀ s key i, reachable s →
       is_Some (GetStoreKeyValue key s !! i) ↔
       ∃ p, nodeMap s !! i = Some p ∧ statusValid (Status p) = true ∧
            (len (Value p) = 0 ∨ hasKey (Value p) key)).
Proof.
  intros H.
  destruct (proj2 (H storeAB_nil "k" "B" storeAB_nil_reachable)) as [x Hx].
  - eexists. split; [reflexivity|]. split; [reflexivity|]. by left.
  - vm_compute in Hx. discriminate.
Qed.

(** C8, amended. [GetStoreKeyValue(k)] has an entry for an id exactly when
    the node map has a node [p] for it whose status is valid and whose
    payload map is not nil and is empty or has the key [k]; the entry
    carries [p]'s id, generation number, last-update time and status, and
    [p]'s value for [k] (the nil value when the map is empty). *)
Theorem GetStoreKeyValue_entries (s : GossipStoreImpl) (key : StoreKey)
    (i : NodeId) :
  (is_Some (GetStoreKeyValue key s !! i) ↔
   ∃ p vm, nodeMap s !! i = Some p ∧ statusValid (Status p) = true ∧
           Value p = Some vm ∧ (size vm = 0 ∨ is_Some (vm !! key))) ∧
  (∀ n, GetStoreKeyValue key s !! i = Some n →
     ∃ p, nodeMap s !! i = Some p ∧
          n = mkNodeValue (Id p) (types.GenNumber p) (LastUpdateTs p)
                (Status p) (index (Value p) key)).
Proof.
  rewrite GetStoreKeyValue_lookup.
  destruct (nodeMap s !! i) as [p|]; [|split].
  - destruct (Value p) as [vm|] eqn:Ev; [|split].
    + destruct (statusValid (Status p)) eqn:Es; simpl; [|split].
      * destruct (bool_decide (size vm = 0)) eqn:E0; simpl.
        -- apply bool_decide_eq_true in E0. split.
           ++ split; [|eauto]. intros _. exists p, vm. eauto.
           ++ intros n [= <-]. exists p. by rewrite Ev.
        -- apply bool_decide_eq_false in E0.
           destruct (bool_decide (is_Some (vm !! key))) eqn:E1; simpl.
           ++ apply bool_decide_eq_true in E1. split.
              ** split; [|eauto]. intros _. exists p, vm. eauto.
              ** intros n [= <-]. exists p. by rewrite Ev.
           ++ apply bool_decide_eq_false in E1. split; [|done].
              split; [by intros [? ?]|].
              intros (p' & vm' & [= <-] & _ & Hv & Hor).
              rewrite Ev in Hv. injection Hv as <-. by destruct Hor.
      * split; [by intros [? ?]|].
        intros (p' & vm' & [= <-] & ? & _). congruence.
      * done.
    + split; [by intros [? ?]|].
      intros (p' & vm' & [= <-] & _ & ? & _). congruence.
    + done.
  - split; [by intros [? ?]|]. by intros (p' & vm' & ? & _).
  - done.
Qed.

(** C7. [UpdateNodeStatus], [RemoveNode] and [GetLocalNodeInfo] return an
    error exactly when the id is not in the node map, and a call that
    returns an error leaves the store as it was ([GetLocalNodeInfo] writes
    nothing at all). *)
Theorem unknown_node_errors (s : GossipStoreImpl) (nodeId : NodeId)
    (st : NodeStatus) (c : Clock) :
  (is_Some (UpdateNodeStatus nodeId st s c).1.1 ↔ nodeMap s !! nodeId = None) ∧
  (is_Some (UpdateNodeStatus nodeId st s c).1.1 →
     (UpdateNodeStatus nodeId st s c).1.2 = s) ∧
  (is_Some (RemoveNode nodeId s).1 ↔ nodeMap s !! nodeId = None) ∧
  (is_Some (RemoveNode nodeId s).1 → (RemoveNode nodeId s).2 = s) ∧
  (is_Some (GetLocalNodeInfo nodeId s).2 ↔ nodeMap s !! nodeId = None).
Proof.
  unfold UpdateNodeStatus, RemoveNode, removeNodeUnlocked, GetLocalNodeInfo.
  destruct (nodeMap s !! nodeId) as [ni|]; simpl.
  - repeat split; try (by intros [? ?]); done.
  - repeat split; eauto.
Qed.

(** ** The self entry and [UpdateSelf] *)

Lemma storeA_reinserted_reachable : reachable storeA_reinserted.
Proof.
  apply (reach_step (RemoveNode "A" storeA).2 OpUpdateSelfTs clock100);
    [|reflexivity].
  apply (reach_step storeA (OpRemoveNode "A") clock100); [|reflexivity].
  apply reach_new.
Qed.

(** C10, as stated, fails: in a reachable store the self id is in the node
    map and [UpdateSelf] panics all the same, the self entry being the zero
    value that [updateSelfTs] stored after [RemoveNode] of the self id,
    whose payload map is nil. *)
Lemma UpdateSelf_panics_with_self_entry :
  ¬ (∀ s key val c, reachable s → is_Some (nodeMap s !! id s) →
       is_Some (UpdateSelf key val s c).1).
Proof.
  intros H.
  destruct (H storeA_reinserted "k" (VInt 1) clock100
              storeA_reinserted_reachable) as [x Hx].
  - vm_compute. eauto.
  - vm_compute in Hx. discriminate.
Qed.

(** C10, amended. [UpdateSelf] returns, without a panic, exactly when the
    self id is in the node map with a payload map that is not nil.
    [InitStore] makes the self entry so. When the self entry is not in the
    node map, as after [RemoveNode] of the self id, the write goes to the
    nil map of the zero value and [UpdateSelf] panics. *)
Theorem UpdateSelf_safe_iff (s : GossipStoreImpl) (key : StoreKey)
    (val : StoreValue) (c : Clock) :
  (is_Some (UpdateSelf key val s c).1 ↔
   ∃ ni vm, nodeMap s !! id s = Some ni ∧ Value ni = Some vm) ∧
  (∀ id0 version st clusterId d c0,
     let s0 := (InitStore id0 version st clusterId d s c0).1 in
     ∃ ni, nodeMap s0 !! id s0 = Some ni ∧ Value ni = Some ∅) ∧
  (nodeMap s !! id s = None → (UpdateSelf key val s c).1 = None) ∧
  (is_Some (nodeMap s !! id s) →
     (RemoveNode (id s) s).1 = None ∧
     id (RemoveNode (id s) s).2 = id s ∧
     nodeMap (RemoveNode (id s) s).2 !! id s = None).
Proof.
  unfold UpdateSelf, lookup0. split; [|split; [|split]].
  - destruct (nodeMap s !! id s) as [ni|] eqn:E; simpl.
    + destruct (Value ni) as [vm|] eqn:Ev; simpl.
      * split; eauto.
      * split; [by intros [? ?]|]. intros (? & ? & [= <-] & ?). congruence.
    + split; [by intros [? ?]|]. by intros (? & ? & ? & ?).
  - intros. eexists. split; [apply lookup_insert_eq|done].
  - by intros ->.
  - intros [ni Hni]. unfold RemoveNode, removeNodeUnlocked. rewrite Hni.
    simpl. split; [done|]. split; [done|]. apply lookup_delete_eq.
Qed.

(** ** One step of the store *)

Lemma insert_keeps {A} (m : gmap string A) j k v :
  is_Some (m !! j) → is_Some (<[k := v]> m !! j).
Proof. intros H. apply lookup_insert_is_Some'. by right. Qed.

(** Every operation keeps the self id, and keeps the self entry unless it
    is a removal of the self id or a reconciliation with a peer map that
    lacks it. *)
Lemma run_self o s c s' :
  is_Some (nodeMap s !! id s) →
  (run o s c).1 = Some s' →
  o ≠ OpRemoveNode (id s) →
  (∀ peers, o = OpUpdateCluster peers → is_Some (peers !! id s)) →
  id s' = id s ∧ is_Some (nodeMap s' !! id s').
Proof.
  intros Hself Hrun Hrm Hpeers. destruct o; simpl in Hrun.
  - injection Hrun as <-. simpl. split; [done|]. by rewrite lookup_insert_eq.
  - unfold UpdateSelf in Hrun.
    destruct (Value (lookup0 (nodeMap s) (id s))); [|done].
    injection Hrun as <-. simpl. split; [done|]. by rewrite lookup_insert_eq.
  - unfold UpdateSelfClusterDomain, updateSelfClusterDomain, bind in Hrun.
    destruct (decide _); simpl in Hrun; injection Hrun as <-; simpl.
    + split; [done|]. by rewrite lookup_insert_eq.
    + done.
  - unfold updateSelfClusterDomain, bind in Hrun.
    destruct (decide _); simpl in Hrun; injection Hrun as <-; simpl.
    + split; [done|]. by rewrite lookup_insert_eq.
    + done.
  - unfold UpdateSelfStatus, UpdateNodeStatus, bind in Hrun.
    destruct (nodeMap s !! id s) eqn:E; [|by destruct Hself].
    injection Hrun as <-. simpl. split; [done|]. by rewrite lookup_insert_eq.
  - unfold UpdateNodeStatus, bind in Hrun.
    destruct (nodeMap s !! nodeId); injection Hrun as <-; simpl; [|done].
    split; [done|]. by apply insert_keeps.
  - unfold AddNode, addNodeUnlocked, bind in Hrun.
    destruct (nodeMap s !! nodeId); injection Hrun as <-; simpl;
      (split; [done|]; by apply insert_keeps).
  - injection Hrun as <-. unfold RemoveNode. rewrite removeNodeUnlocked_store.
    simpl. split; [done|]. rewrite lookup_delete_ne; [done|]. congruence.
  - injection Hrun as <-. rewrite Update_frame. simpl. split; [done|].
    destruct (Update_merge_entry_dom diff s (id s)) as [_ H]. by apply H.
  - unfold bind in Hrun.
    destruct (updateCluster peers s c) as [[s1 q] c1] eqn:E.
    injection Hrun as <-.
    assert (Hs1 : s1 = (updateCluster peers s c).1.1) by by rewrite E.
    destruct (updateCluster_frame peers s c) as [[Hid _] _].
    rewrite <- Hs1 in Hid. split; [done|]. rewrite Hid, Hs1.
    pose proof (updateCluster_nodeMap peers s c (id s)) as Hn. simpl in Hn.
    destruct (Hpeers peers eq_refl) as [u Hu]. rewrite Hu in Hn.
    destruct Hself as [ni Hni]. rewrite Hni in Hn. rewrite Hn. eauto.
  - injection Hrun as <-. done.
Qed.

(** Only [UpdateSelfClusterDomain] and [updateCluster] write the
    failure-domain map. *)
Lemma run_failureDomainsMap o s c s' :
  (run o s c).1 = Some s' →
  (∀ d, o ≠ OpUpdateSelfClusterDomain d) →
  (∀ peers, o ≠ OpUpdateCluster peers) →
  failureDomainsMap s' = failureDomainsMap s.
Proof.
  intros Hrun Hd Hp. destruct o; simpl in Hrun.
  - by injection Hrun as <-.
  - unfold UpdateSelf in Hrun.
    destruct (Value (lookup0 (nodeMap s) (id s))); [|done].
    by injection Hrun as <-.
  - by destruct (Hd d).
  - unfold updateSelfClusterDomain, bind in Hrun.
    destruct (decide _); by injection Hrun as <-.
  - unfold UpdateSelfStatus, UpdateNodeStatus, bind in Hrun.
    destruct (nodeMap s !! id s); by injection Hrun as <-.
  - unfold UpdateNodeStatus, bind in Hrun.
    destruct (nodeMap s !! nodeId); by injection Hrun as <-.
  - unfold AddNode, addNodeUnlocked, bind in Hrun.
    destruct (nodeMap s !! nodeId); by injection Hrun as <-.
  - injection Hrun as <-. unfold RemoveNode.
    by rewrite removeNodeUnlocked_store.
  - injection Hrun as <-. by rewrite Update_frame.
  - by destruct (Hp peers).
  - by injection Hrun as <-.
Qed.

Lemma oneBucket_failureDomainsMap s s' :
  failureDomainsMap s' = failureDomainsMap s → oneBucket s → oneBucket s'.
Proof. unfold oneBucket, inBucket. by intros ->. Qed.

Lemma reachable_oneBucket s : reachable s → oneBucket s.
Proof.
  induction 1 as [| |s o c s' _ IH Hrun].
  - by intros d1 d2 i [? ?].
  - by intros d1 d2 i [? ?].
  - destruct o;
      try (apply (oneBucket_failureDomainsMap s); [|done];
           by apply (run_failureDomainsMap _ s c s' Hrun)).
    + simpl in Hrun.
      unfold UpdateSelfClusterDomain, updateSelfClusterDomain, bind in Hrun.
      destruct (decide _); simpl in Hrun; injection Hrun as <-; [|done].
      by apply updateClusterDomainsMap_oneBucket.
    + simpl in Hrun. unfold bind in Hrun.
      destruct (updateCluster peers s c) as [[s1 q] c1] eqn:E.
      injection Hrun as <-.
      assert (Hs1 : s1 = (updateCluster peers s c).1.1) by by rewrite E.
      rewrite Hs1. by apply updateCluster_oneBucket.
Qed.

(** ** The lifetime of the self entry *)

(** C1, as stated, fails: [RemoveNode] of the self id deletes the self
    entry, and so does [updateCluster] with a peer map without the self
    id. *)
Lemma self_entry_removed :
  nodeMap (RemoveNode (id storeA) storeA).2 !! id storeA = None ∧
  peersB !! id storeA = None ∧
  nodeMap (updateCluster peersB storeA clock100).1.1 !! id storeA = None.
Proof. by vm_compute. Qed.

(** C1, amended. [InitStore] puts the self entry in the node map, and
    every operation keeps it there, except [RemoveNode] of the self id and
    [updateCluster] with a peer map that lacks the self id: both delete
    it. *)
Theorem self_entry_lifetime :
  (∀ id0 version st clusterId d s0 c,
     let s := (InitStore id0 version st clusterId d s0 c).1 in
     is_Some (nodeMap s !! id s)) ∧
  (∀ o s c s',
     is_Some (nodeMap s !! id s) →
     (run o s c).1 = Some s' →
     o ≠ OpRemoveNode (id s) →
     (∀ peers, o = OpUpdateCluster peers → is_Some (peers !! id s)) →
     id s' = id s ∧ is_Some (nodeMap s' !! id s')) ∧
  (∀ s, is_Some (nodeMap s !! id s) →
     (RemoveNode (id s) s).1 = None ∧
     nodeMap (RemoveNode (id s) s).2 !! id s = None) ∧
  (∀ peers s c,
     peers !! id s = None →
     nodeMap (updateCluster peers s c).1.1 !! id s = None).
Proof.
  split; [|split; [|split]].
  - intros. simpl. by rewrite lookup_insert_eq.
  - apply run_self.
  - intros s [ni Hni]. unfold RemoveNode, removeNodeUnlocked. rewrite Hni.
    simpl. split; [done|]. apply lookup_delete_eq.
  - intros peers s c Hp.
    pose proof (updateCluster_nodeMap peers s c (id s)) as Hn. simpl in Hn.
    by rewrite Hp in Hn.
Qed.

(** ** Reconciliation *)

(** C3, as stated, fails: reconciled with a peer map that has B alone, the
    store of A has the key B alone, not B and A. *)
Lemma updateCluster_keys_without_self :
  dom (GetLocalState (updateCluster peersB storeA clock100).1.1) ≠
  dom peersB ∪ {[id storeA]}.
Proof.
  rewrite getLocalState_nodeMap, updateCluster_dom. intros H.
  assert (HA : id storeA ∈ dom peersB) by (rewrite H; set_solver).
  apply elem_of_dom in HA as [u Hu]. by vm_compute in Hu.
Qed.

(** C3, amended. After [updateCluster(P)] the key set of [GetLocalState()]
    is the key set of [P], which is [P.keys ∪ {selfId}] when [P] has the
    self id; every id of [P] that was not in the node map is there with
    status DOWN and the quorum-member flag and the cluster domain [P]
    gives it; and the cluster size is the number of entries of [P]. *)
Theorem updateCluster_reconciles (peers : gmap string NodeUpdate)
    (s : GossipStoreImpl) (c : Clock) :
  let s' := (updateCluster peers s c).1.1 in
  dom (GetLocalState s') = dom peers ∧
  (is_Some (peers !! id s) → dom (GetLocalState s') = dom peers ∪ {[id s]}) ∧
  (∀ i u, peers !! i = Some u → nodeMap s !! i = None →
     ∃ ni, GetLocalState s' !! i = Some ni ∧
           Status ni = NODE_STATUS_DOWN ∧
           QuorumMember ni = upd_QuorumMember u ∧
           ClusterDomain ni = upd_ClusterDomain u) ∧
  clusterSize s' = N.of_nat (size peers).
Proof.
  simpl. rewrite getLocalState_nodeMap, updateCluster_dom.
  split; [done|]. split; [|split].
  - intros Hs%elem_of_dom. apply set_eq; intros x.
    rewrite elem_of_union, elem_of_singleton.
    split; [by left|]. by intros [?| ->].
  - intros i u Hu Hn.
    pose proof (updateCluster_nodeMap peers s c i) as H. cbv zeta in H.
    rewrite Hu, Hn in H. destruct H as (t1 & t2 & _ & _ & H).
    eexists. split; [exact H|]. done.
  - apply updateCluster_frame.
Qed.

(** ** The failure-domain index *)

Lemma storeAB_moved_reachable : reachable storeAB_moved.
Proof.
  apply (reach_step (updateCluster peersAB storeA clock100).1.1
           (OpAddNode "B" NODE_STATUS_UP true "d2") clock100);
    [|reflexivity].
  apply (reach_step storeA (OpUpdateCluster peersAB) clock100);
    [|reflexivity].
  apply reach_new.
Qed.

(** C4, as stated, fails: after [updateCluster] has put B in the bucket of
    d1, [AddNode("B", UP, true, "d2")] sets the cluster domain of B to d2
    and leaves B in the bucket of d1. *)
Lemma index_stale_after_AddNode :
  ¬ (∀ s, reachable s →
       (∀ d i, inBucket s d i →
          ∃ ni, nodeMap s !! i = Some ni ∧ ClusterDomain ni = d) ∧
       oneBucket s).
Proof.
  intros H. destruct (H storeAB_moved storeAB_moved_reachable) as [Hc _].
  destruct (Hc "d1" "B") as (ni & Hni & Hd).
  - vm_compute. eauto.
  - vm_compute in Hni. injection Hni as <-. discriminate.
Qed.

(** C4, amended. At every reachable state no id is in more than one
    domain bucket. The bucket an id is in agrees with its cluster domain
    in the node map when the id has just been indexed: after
    [updateCluster(P)] for every id of [P], and for the self id once
    [updateClusterDomainsMap] has been called for it after an
    [updateSelfClusterDomain] that changed the domain. The other
    operations, [updateSelfClusterDomain] among them, do not write the
    index. *)
Theorem index_consistency :
  (∀ s, reachable s → oneBucket s) ∧
  (∀ peers s c i u, peers !! i = Some u →
     let s' := (updateCluster peers s c).1.1 in
     ∀ d, inBucket s' d i ↔
          ∃ ni, nodeMap s' !! i = Some ni ∧ ClusterDomain ni = d) ∧
  (∀ d0 s c,
     (updateSelfClusterDomain d0 s c).1.1 = true →
     let s' := updateClusterDomainsMap d0 (id s)
                 (updateSelfClusterDomain d0 s c).1.2 in
     ∀ d, inBucket s' d (id s') ↔
          ∃ ni, nodeMap s' !! id s' = Some ni ∧ ClusterDomain ni = d) ∧
  (∀ o s c s', (run o s c).1 = Some s' →
     (∀ d, o ≠ OpUpdateSelfClusterDomain d) →
     (∀ peers, o ≠ OpUpdateCluster peers) →
     failureDomainsMap s' = failureDomainsMap s).
Proof.
  split; [|split; [|split]].
  - apply reachable_oneBucket.
  - intros peers s c i u Hu. simpl. intros d. unfold inBucket.
    rewrite updateCluster_bucketEntry, Hu.
    pose proof (updateCluster_nodeMap peers s c i) as Hn. simpl in Hn.
    rewrite Hu in Hn.
    assert (Hd : ∃ ni, nodeMap (updateCluster peers s c).1.1 !! i = Some ni ∧
                       ClusterDomain ni = upd_ClusterDomain u).
    { destruct (nodeMap s !! i) as [ni|].
      - eexists. split; [exact Hn|done].
      - destruct Hn as (t1 & t2 & _ & _ & Hn). eexists. split; [exact Hn|done]. }
    destruct Hd as (ni & Hni & Hd). destruct (decide _) as [->|Hne].
    + split; [eauto|]. intros _. eauto.
    + split; [by intros [? ?]|]. intros (ni' & Hni' & <-).
      rewrite Hni in Hni'. injection Hni' as <-. congruence.
  - intros d0 s c. unfold updateSelfClusterDomain.
    destruct (decide _); simpl; [|done]. intros _ d. unfold inBucket. simpl.
    rewrite reindex_bucketEntry, decide_True by done.
    rewrite lookup_insert_eq. destruct (decide (d = d0)) as [->|Hne].
    + split; [|eauto]. intros _. eexists. split; [done|done].
    + split; [by intros [? ?]|]. intros (ni' & [= <-] & Hd). simpl in Hd.
      congruence.
  - apply run_failureDomainsMap.
Qed.

(** C5, as stated, fails: in the store of A, made in domain d1,
    [updateSelfClusterDomain("d2")] returns true and leaves the
    failure-domain map nil, so that the bucket of d2 does not hold A. *)
Lemma updateSelfClusterDomain_does_not_index :
  (updateSelfClusterDomain "d2" storeA clock200).1.1 = true ∧
  failureDomainsMap (updateSelfClusterDomain "d2" storeA clock200).1.2 = None ∧
  ¬ inBucket (updateSelfClusterDomain "d2" storeA clock200).1.2 "d2" "A".
Proof.
  split; [reflexivity|]. split; [reflexivity|]. by intros [? ?].
Qed.

(** C5, amended. In a store whose self entry is in domain [d1], as
    [InitStore] with domain [d1] leaves it, [updateSelfClusterDomain(d2)]
    for another domain [d2] returns true and sets the cluster domain of
    the self entry to [d2], and it does not write the failure-domain map:
    the self id is in the buckets it was in, in none in a store just
    made. A second [updateSelfClusterDomain(d2)] returns false and changes
    nothing. The re-index is the work of [updateClusterDomainsMap]: once
    it is called for [d2] and the self id, the self id is out of the bucket
    of [d1] and in the bucket of [d2], the node map is as it was, and
    [updateSelfClusterDomain(d2)] still returns false and changes
    nothing. *)
Theorem updateSelfClusterDomain_then_reindex (s : GossipStoreImpl)
    (ni : NodeInfo) (d1 d2 : string) (c : Clock) :
  nodeMap s !! id s = Some ni → ClusterDomain ni = d1 → d1 ≠ d2 →
  let r := (updateSelfClusterDomain d2 s c).1 in
  let s' := updateClusterDomainsMap d2 (id s) r.2 in
  r.1 = true ∧ id r.2 = id s ∧
  (∃ ni', nodeMap r.2 !! id s = Some ni' ∧ ClusterDomain ni' = d2) ∧
  failureDomainsMap r.2 = failureDomainsMap s ∧
  (failureDomainsMap s = None → ∀ d, ¬ inBucket r.2 d (id s)) ∧
  (∀ c', (updateSelfClusterDomain d2 r.2 c').1 = (false, r.2)) ∧
  ¬ inBucket s' d1 (id s) ∧ inBucket s' d2 (id s) ∧
  nodeMap s' = nodeMap r.2 ∧
  ∀ c', (updateSelfClusterDomain d2 s' c').1 = (false, s').
Proof.
  intros Hni Hd1 Hne. cbv zeta.
  unfold updateSelfClusterDomain, lookup0.
  rewrite Hni. simpl. rewrite Hd1. rewrite decide_True by done. simpl.
  split; [done|]. split; [done|].
  split; [eexists; split; [apply lookup_insert_eq|done]|].
  split; [done|]. split; [|split; [|split; [|split; [|split]]]].
  - intros Hnil d. unfold inBucket. simpl. rewrite Hnil. by intros [? ?].
  - intros c'. rewrite lookup_insert_eq. simpl.
    rewrite decide_False; [done|]. by intros H; apply H.
  - unfold inBucket. simpl. rewrite reindex_bucketEntry.
    rewrite decide_True by done. rewrite decide_False by done.
    by intros [? ?].
  - unfold inBucket. simpl. rewrite reindex_bucketEntry.
    rewrite !decide_True by done. eauto.
  - done.
  - intros c'. rewrite lookup_insert_eq. simpl.
    rewrite decide_False; [done|]. by intros H; apply H.
Qed.

Lemma updateSelfClusterDomain_then_reindex_witness :
  (updateSelfClusterDomain "d2" storeA clock200).1.1 = true ∧
  (∀ d, ¬ inBucket (updateSelfClusterDomain "d2" storeA clock200).1.2 d "A") ∧
  ¬ inBucket
      (updateClusterDomainsMap "d2" "A"
         (updateSelfClusterDomain "d2" storeA clock200).1.2) "d1" "A" ∧
  inBucket
    (updateClusterDomainsMap "d2" "A"
       (updateSelfClusterDomain "d2" storeA clock200).1.2) "d2" "A".
Proof.
  assert (Hni : nodeMap storeA !! id storeA =
                Some (mkNodeInfo "A" 0%N 100%Z 0%Z NODE_STATUS_NOT_IN_QUORUM
                        (Some ∅) false "d1" "")) by reflexivity.
  assert (Hne : "d1" ≠ "d2") by discriminate.
  destruct (updateSelfClusterDomain_then_reindex storeA _ "d1" "d2" clock200
              Hni eq_refl Hne) as (H1 & _ & _ & _ & H2 & _ & H3 & H4 & _).
  split; [exact H1|]. split; [exact (H2 eq_refl)|].
  split; [exact H3|exact H4].
Defined.

(** ** Time stamps *)



(** ** The scenarios of the specification, run on the model *)

(** Init and self-update: the value A wrote is what [GetStoreKeyValue]
    answers for A. *)
Example scenario_self_update :
  (λ s, GetStoreKeyValue "k" s) <$>
    (UpdateSelf "k" (VString "v") storeA clock200).1 =
  Some (<["A" := mkNodeValue "A" 0%N 200%Z NODE_STATUS_NOT_IN_QUORUM
                   (VString "v")]> ∅).
Proof. reflexivity. Qed.

(** A merge does not make the store learn of an unknown peer. *)
Example scenario_merge_unknown :
  (GetLocalNodeInfo "B" (Update (<["B" := remoteB]> ∅) storeA)).2 =
  Some "Node with id (B) not found".
Proof. reflexivity. Qed.

(** A merge takes the payload of the peer and keeps the local status. *)
Example scenario_merge_status :
  (λ ni, (Status ni, Value ni)) <$>
    nodeMap (Update (<["B" := remoteB]> ∅) storeAB) !! "B" =
  Some (NODE_STATUS_DOWN, Some (<["k" := VInt 7]> ∅)).
Proof. reflexivity. Qed.

(** A reconciliation that drops B and brings C. *)
Example scenario_reconcile :
  let s := (updateCluster peersAC
              (AddNode "B" NODE_STATUS_UP true "d1" storeA clock100).1
              clock200).1.1 in
  dom (nodeMap s) = {["A"; "C"]} ∧
  getNodesFromClusterDomain "d1" s = Some (<["A" := ""]> ∅) ∧
  getNodesFromClusterDomain "d2" s = Some (<["C" := ""]> ∅).
Proof.
  cbv zeta. rewrite updateCluster_dom. split; [|split]; [|reflexivity..].
  apply set_eq; intros x. unfold peersAC.
  rewrite !dom_insert_L, dom_empty_L. set_solver.
Qed.

(** ** The keys of the store *)

(** Writing the keys of a list at the indices that follow a prefix fills
    the slice with them, in their order. *)
Lemma slice_fill {V} (l : list (string * V)) :
  ∀ (pre : list string) (n : nat),
    foldl (λ (acc : list string * nat) kv, (<[acc.2 := kv.1]> acc.1, S acc.2))
      (pre ++ replicate (length l + n) "", length pre) l =
    (pre ++ l.*1 ++ replicate n "", length pre + length l).
Proof.
  induction l as [|[k v] l IH]; intros pre n; simpl.
  - by rewrite Nat.add_0_r.
  - rewrite insert_app_r_alt by lia. rewrite Nat.sub_diag. simpl.
    replace (pre ++ k :: replicate (length l + n) "")
      with ((pre ++ [k]) ++ replicate (length l + n) "")
      by by rewrite <- app_assoc.
    replace (S (length pre)) with (length (pre ++ [k]))
      by (rewrite length_app; simpl; lia).
    rewrite IH. rewrite <- app_assoc. simpl. f_equal.
    rewrite length_app. simpl. lia.
Qed.

Lemma GetStoreKeys_body_lookup i ni (km : gmap string bool) k :
  is_Some (GetStoreKeys_body i ni km !! k) ↔
  is_Some (km !! k) ∨ hasKey (Value ni) k.
Proof.
  unfold GetStoreKeys_body, hasKey. destruct (Value ni) as [vm|].
  - rewrite (range_pointwise (λ key (_ : StoreValue) keyMap, <[key := true]> keyMap)
               (λ _ _ _, Some true)).
    + destruct (vm !! k); split; eauto. intros [?|[? ?]]; done.
    + intros. apply lookup_insert_eq.
    + intros. by apply lookup_insert_ne.
  - split; [by left|]. by intros [?|[]].
Qed.

Lemma keyMap_lookup (l : list (string * NodeInfo)) :
  ∀ (km : gmap string bool) k,
    is_Some (foldl (λ acc kv, GetStoreKeys_body kv.1 kv.2 acc) km l !! k) ↔
    is_Some (km !! k) ∨ ∃ i ni, (i, ni) ∈ l ∧ hasKey (Value ni) k.
Proof.
  induction l as [|[i ni] l IH]; intros km k; simpl.
  - split; [by left|]. intros [?|(? & ? & ?%not_elem_of_nil & _)]; done.
  - rewrite IH, GetStoreKeys_body_lookup. split.
    + intros [[?|?]|(i' & ni' & Hin & Hk)].
      * by left.
      * right. exists i, ni. split; [left|done].
      * right. exists i', ni'. split; [by right|done].
    + intros [?|(i' & ni' & Hin & Hk)].
      * left. by left.
      * apply elem_of_cons in Hin as [[= -> ->]|Hin].
        -- left. by right.
        -- right. eauto.
Qed.

(** The slice [GetStoreKeys] returns holds the keys of its key map. *)
Lemma GetStoreKeys_list (s : GossipStoreImpl) :
  GetStoreKeys s = (map_to_list (range (nodeMap s) GetStoreKeys_body ∅)).*1.
Proof.
  unfold GetStoreKeys. set (keyMap := range (nodeMap s) GetStoreKeys_body ∅).
  unfold range at 1.
  pose proof (slice_fill (map_to_list keyMap) [] 0) as H. simpl in H.
  rewrite Nat.add_0_r, length_map_to_list in H. rewrite H. simpl.
  by rewrite app_nil_r.
Qed.

Lemma GetStoreKeys_elem_of (s : GossipStoreImpl) (k : StoreKey) :
  k ∈ GetStoreKeys s ↔ ∃ i ni, nodeMap s !! i = Some ni ∧ hasKey (Value ni) k.
Proof.
  rewrite GetStoreKeys_list, list_elem_of_fmap.
  set (keyMap := range (nodeMap s) GetStoreKeys_body ∅).
  assert (Hk : (∃ x : string * bool, k = x.1 ∧ x ∈ map_to_list keyMap) ↔
               is_Some (keyMap !! k)).
  { split.
    - intros [[k' b] [-> Hin%elem_of_map_to_list]]. eauto.
    - intros [b Hb]. exists (k, b). split; [done|].
      by apply elem_of_map_to_list. }
  rewrite Hk. unfold keyMap, range. rewrite keyMap_lookup, lookup_empty.
  split.
  - intros [[? ?]|(i & ni & Hin%elem_of_map_to_list & Hh)]; [done|]. eauto.
  - intros (i & ni & Hi & Hh). right. exists i, ni.
    split; [by apply elem_of_map_to_list|done].
Qed.

(** X1. [GetStoreKeys] returns, each once, the keys that the payload map
    of some node of the node map has; a node whose payload map is nil
    gives none. *)
Theorem GetStoreKeys_spec (s : GossipStoreImpl) :
  NoDup (GetStoreKeys s) ∧
  ∀ k, k ∈ GetStoreKeys s ↔
       ∃ i ni vm, nodeMap s !! i = Some ni ∧ Value ni = Some vm ∧
                  is_Some (vm !! k).
Proof.
  split.
  - rewrite GetStoreKeys_list. apply NoDup_fst_map_to_list.
  - intros k. rewrite GetStoreKeys_elem_of. split.
    + intros (i & ni & Hi & Hh). unfold hasKey in Hh.
      destruct (Value ni) as [vm|] eqn:Ev; [|done]. exists i, ni, vm. eauto.
    + intros (i & ni & vm & Hi & Hv & Hk). exists i, ni.
      split; [done|]. unfold hasKey. by rewrite Hv.
Qed.

(** ** More on the merge *)

Lemma Update_id diff s : id (Update diff s) = id s.
Proof. by rewrite Update_frame. Qed.

Lemma Update_own_twice self i n o :
  Update_own self i n (Update_own self i n o) = Update_own self i n o.
Proof.
  unfold Update_own. destruct (decide (i = self)); [done|].
  destruct o as [sv|]; [|done].
  destruct (statusValid (Status sv)) eqn:Hv; simpl.
  - destruct (Before (LastUpdateTs sv) (LastUpdateTs n)) eqn:Hb; simpl.
    + rewrite Hv. simpl. unfold Before.
      rewrite bool_decide_eq_false_2; [done|lia].
    + by rewrite Hv, Hb.
  - by rewrite Hv.
Qed.

(** X2. Merging the same remote map a second time changes nothing. *)
Theorem Update_idempotent (diff : NodeInfoMap) (s : GossipStoreImpl) :
  Update diff (Update diff s) = Update diff s.
Proof.
  rewrite (Update_frame diff (Update diff s)).
  assert (Hm : nodeMap (Update diff (Update diff s)) =
               nodeMap (Update diff s)).
  { apply map_eq; intros i. rewrite Update_nodeMap, Update_id.
    rewrite (Update_nodeMap diff s). destruct (diff !! i) as [n|]; [|done].
    apply Update_own_twice. }
  rewrite Hm. by destruct (Update diff s).
Qed.

(** X3. A remote map that speaks only of the self id and of ids the node
    map lacks, the empty map among them, leaves the store as it is. *)
Theorem Update_ignores_self_and_unknown (diff : NodeInfoMap)
    (s : GossipStoreImpl) :
  (∀ i, is_Some (diff !! i) → i = id s ∨ nodeMap s !! i = None) →
  Update diff s = s.
Proof.
  intros H. rewrite Update_frame.
  assert (Hm : nodeMap (Update diff s) = nodeMap s).
  { apply map_eq; intros i. rewrite Update_nodeMap.
    destruct (diff !! i) as [n|] eqn:E; [|done].
    unfold Update_own. destruct (decide (i = id s)); [done|].
    destruct (H i) as [?|Hn]; [by rewrite E|done|]. by rewrite Hn. }
  rewrite Hm. by destruct s.
Qed.

Lemma Update_ignores_self_and_unknown_witness :
  Update (<["B" := remoteB]> (<["A" := remoteB]> ∅)) storeA = storeA.
Proof.
  apply Update_ignores_self_and_unknown. intros i [n Hn].
  destruct (decide (i = "A")) as [->|HA]; [by left|]. right.
  change (nodeMap storeA) with
    (<["A" := mkNodeInfo "A" 0%N 100%Z 0%Z NODE_STATUS_NOT_IN_QUORUM
                (Some ∅) false "d1" ""]> (∅ : gmap string NodeInfo)).
  by rewrite lookup_insert_ne, lookup_empty.
Defined.

(** X4. The merge never moves the last-update time of an entry with a
    valid status backwards: the entry stays, with a time that is the one it
    had or a later one. *)
Theorem Update_time_monotone (diff : NodeInfoMap) (s : GossipStoreImpl)
    (i : NodeId) (local : NodeInfo) :
  nodeMap s !! i = Some local →
  statusValid (Status local) = true →
  ∃ local', nodeMap (Update diff s) !! i = Some local' ∧
            Status local' = Status local ∧
            (LastUpdateTs local ≤ LastUpdateTs local')%Z.
Proof.
  intros Hl Hv. rewrite Update_nodeMap, Hl.
  destruct (diff !! i) as [n|]; [|by exists local].
  unfold Update_own. destruct (decide (i = id s)); [by exists local|].
  rewrite Hv. simpl. unfold Before. case_bool_decide.
  - eexists. split; [done|]. split; [done|]. simpl. lia.
  - by exists local.
Qed.

Lemma Update_time_monotone_witness :
  ∃ local', nodeMap (Update (<["B" := remoteB]> ∅) storeAB) !! "B" =
            Some local' ∧
            Status local' = NODE_STATUS_DOWN ∧
            (100 ≤ LastUpdateTs local')%Z.
Proof.
  apply (Update_time_monotone (<["B" := remoteB]> ∅) storeAB "B"
           (mkNodeInfo "B" 0%N 100%Z 101%Z NODE_STATUS_DOWN (Some ∅) true
              "d1" "")); reflexivity.
Defined.

(** ** Writing and reading the payload of the self node *)

(** X5. When the self entry has a valid status and a payload map that is
    not nil, [UpdateSelf(key, val)] returns, and then
    [GetStoreKeyValue(key)] answers for the self id with [val] and the time
    of the write, [GetStoreKeys] has [key], and for another key
    [GetStoreKeyValue] answers for the self id exactly when the payload map
    had that key before. *)
Theorem UpdateSelf_then_read (s : GossipStoreImpl) (ni : NodeInfo)
    (vm : gmap string StoreValue) (key : StoreKey) (val : StoreValue)
    (c : Clock) :
  nodeMap s !! id s = Some ni → Value ni = Some vm →
  statusValid (Status ni) = true →
  ∃ s', (UpdateSelf key val s c).1 = Some s' ∧
        GetStoreKeyValue key s' !! id s =
        Some (mkNodeValue (Id ni) (types.GenNumber ni) (c 0) (Status ni) val) ∧
        key ∈ GetStoreKeys s' ∧
        ∀ k, k ≠ key →
             (is_Some (GetStoreKeyValue k s' !! id s) ↔ is_Some (vm !! k)).
Proof.
  intros Hni Hv Hst. unfold UpdateSelf, lookup0. rewrite Hni. simpl.
  rewrite Hv. simpl. eexists. split; [done|]. split; [|split].
  - rewrite GetStoreKeyValue_lookup. simpl. rewrite lookup_insert_eq. simpl.
    rewrite Hst. simpl. rewrite lookup_insert_eq.
    rewrite (bool_decide_eq_true_2 (is_Some (Some val))) by eauto.
    by rewrite orb_true_r.
  - apply GetStoreKeys_elem_of. exists (id s). eexists.
    split; [apply lookup_insert_eq|]. simpl.
    by rewrite lookup_insert_eq.
  - intros k Hk. rewrite GetStoreKeyValue_lookup. simpl.
    rewrite lookup_insert_eq. simpl. rewrite Hst. simpl.
    rewrite lookup_insert_ne by done.
    rewrite bool_decide_eq_false_2.
    + simpl. case_bool_decide as Hs; [by split|].
      split; [by intros [? ?]|done].
    + rewrite map_size_empty_iff. apply insert_non_empty.
Qed.

Lemma UpdateSelf_then_read_witness :
  ∃ s', (UpdateSelf "k" (VInt 1) storeA clock200).1 = Some s' ∧
        GetStoreKeyValue "k" s' !! "A" =
        Some (mkNodeValue "A" 0%N 200%Z NODE_STATUS_NOT_IN_QUORUM (VInt 1)) ∧
        "k" ∈ GetStoreKeys s' ∧
        ∀ k, k ≠ "k" →
             (is_Some (GetStoreKeyValue k s' !! "A") ↔
              is_Some ((∅ : gmap string StoreValue) !! k)).
Proof.
  apply (UpdateSelf_then_read storeA
           (mkNodeInfo "A" 0%N 100%Z 0%Z NODE_STATUS_NOT_IN_QUORUM (Some ∅)
              false "d1" "") ∅ "k" (VInt 1) clock200); reflexivity.
Defined.

(** ** Adding, removing and looking up a node *)

(** X6. [AddNode] of an id the node map lacks, undone by [RemoveNode] of
    that id, gives back the store as it was, with no error. *)
Theorem AddNode_then_RemoveNode (s : GossipStoreImpl) (i : NodeId)
    (st : NodeStatus) (q : bool) (d : string) (c : Clock) :
  nodeMap s !! i = None →
  RemoveNode i (AddNode i st q d s c).1 = (None, s).
Proof.
  intros Hi. unfold AddNode. rewrite addNodeUnlocked_new by done. simpl.
  unfold RemoveNode, removeNodeUnlocked. simpl. rewrite lookup_insert_eq.
  rewrite delete_insert_eq, delete_id by done. by destruct s.
Qed.

Lemma AddNode_then_RemoveNode_witness :
  RemoveNode "B" (AddNode "B" NODE_STATUS_UP true "d1" storeA clock200).1 =
  (None, storeA).
Proof. apply AddNode_then_RemoveNode. reflexivity. Defined.

(** X7. After [AddNode] the id is known: [GetLocalNodeInfo] returns, with
    no error, an entry with the status, quorum-member flag and domain of
    the call and the time of the call. For an id that was known the entry
    keeps its id field, generation number, payload, address and
    wait-for-generation time; for a new id it has generation 0, an empty
    payload map that is not nil and no address. *)
Theorem AddNode_then_GetLocalNodeInfo (s : GossipStoreImpl) (i : NodeId)
    (st : NodeStatus) (q : bool) (d : string) (c : Clock) :
  GetLocalNodeInfo i (AddNode i st q d s c).1 =
  (match nodeMap s !! i with
   | Some ni =>
       mkNodeInfo (Id ni) (types.GenNumber ni) (c 0) (WaitForGenUpdateTs ni)
         st (Value ni) q d (Addr ni)
   | None => mkNodeInfo i 0%N (c 0) (c 1) st (Some ∅) q d ""
   end, None).
Proof.
  unfold GetLocalNodeInfo, AddNode, addNodeUnlocked.
  destruct (nodeMap s !! i) as [ni|]; simpl; by rewrite lookup_insert_eq.
Qed.

(** X8. [RemoveNode] of a known id returns no error and removes that id
    alone: the other entries stay, a lookup of the id and a second
    [RemoveNode] of it return an error, and the failure-domain map is not
    touched, so that the id stays in the bucket it was in. *)
Theorem RemoveNode_removes (s : GossipStoreImpl) (i : NodeId) :
  is_Some (nodeMap s !! i) →
  let r := RemoveNode i s in
  r.1 = None ∧
  is_Some (GetLocalNodeInfo i r.2).2 ∧
  is_Some (RemoveNode i r.2).1 ∧
  (∀ j, j ≠ i → nodeMap r.2 !! j = nodeMap s !! j) ∧
  (∀ d, inBucket r.2 d i ↔ inBucket s d i) ∧
  r.2 = set_nodeMap (delete i (nodeMap s)) s.
Proof.
  intros [ni Hni]. unfold RemoveNode, removeNodeUnlocked, GetLocalNodeInfo.
  rewrite Hni. simpl. rewrite lookup_delete_eq. simpl.
  split; [done|]. split; [eauto|]. split; [eauto|]. split; [|done].
  intros j Hj. by rewrite lookup_delete_ne.
Qed.

Lemma RemoveNode_removes_witness :
  (RemoveNode "B" storeAB).1 = None ∧
  is_Some (GetLocalNodeInfo "B" (RemoveNode "B" storeAB).2).2.
Proof.
  assert (H : is_Some (nodeMap storeAB !! "B")) by (vm_compute; eauto).
  destruct (RemoveNode_removes storeAB "B" H) as (H1 & H2 & _).
  split; [exact H1|exact H2].
Defined.

(** X9. [GetLocalState] and [GetLocalNodeInfo] agree: the snapshot has an
    entry for an id exactly when the lookup returns no error, and then
    the lookup returns that entry; for an unknown id the lookup returns
    the zero [NodeInfo] beside the error. *)
Theorem GetLocalState_agrees_with_lookup (s : GossipStoreImpl) (i : NodeId) :
  match GetLocalState s !! i with
  | Some ni => GetLocalNodeInfo i s = (ni, None)
  | None =>
      (GetLocalNodeInfo i s).1 = zeroNodeInfo ∧
      is_Some (GetLocalNodeInfo i s).2
  end.
Proof.
  rewrite getLocalState_nodeMap. unfold GetLocalNodeInfo.
  destruct (nodeMap s !! i); simpl; eauto.
Qed.

(** ** Status updates *)

(** X10. After [UpdateNodeStatus] of a known id the lookup of the id
    returns the entry with the new status and the time of the call, the
    other fields kept. [UpdateSelfStatus] sets what [GetSelfStatus] reads
    when the self entry is in the node map; when it is not,
    [UpdateSelfStatus] drops the error and leaves the store as it is, and
    [GetSelfStatus] reads the status of the zero value, INVALID. *)
Theorem status_round_trip (s : GossipStoreImpl) (st : NodeStatus)
    (c : Clock) :
  (∀ i ni, nodeMap s !! i = Some ni →
     GetLocalNodeInfo i (UpdateNodeStatus i st s c).1.2 =
     (set_LastUpdateTs (c 0) (set_Status st ni), None)) ∧
  (is_Some (nodeMap s !! id s) →
     GetSelfStatus (UpdateSelfStatus st s c).1 = st) ∧
  (nodeMap s !! id s = None →
     (UpdateSelfStatus st s c).1 = s ∧
     GetSelfStatus s = NODE_STATUS_INVALID).
Proof.
  split; [|split].
  - intros i ni Hni. unfold UpdateNodeStatus, GetLocalNodeInfo. rewrite Hni.
    simpl. by rewrite lookup_insert_eq.
  - intros [ni Hni].
    unfold GetSelfStatus, UpdateSelfStatus, UpdateNodeStatus, bind, lookup0.
    rewrite Hni. simpl. by rewrite lookup_insert_eq.
  - intros Hni.
    unfold GetSelfStatus, UpdateSelfStatus, UpdateNodeStatus, bind, lookup0.
    by rewrite Hni.
Qed.

(** ** More on the reconciliation *)

Lemma count_member_fold peers (l : list string) d :
  ∀ q : gmap string nat,
    foldl (λ acc k, count_member peers k acc) q l !! d =
    let n := length (filter
                       (λ k, upd_QuorumMember
                               (default zeroNodeUpdate (peers !! k)) = true ∧
                             upd_ClusterDomain
                               (default zeroNodeUpdate (peers !! k)) = d) l) in
    if decide (n = 0) then q !! d else Some (default 0 (q !! d) + n).
Proof.
  induction l as [|k l IH]; intros q; [done|].
  cbn [foldl]. rewrite IH. cbv zeta. rewrite filter_cons.
  unfold count_member.
  set (u := default zeroNodeUpdate (peers !! k)).
  set (n := length (filter _ l)).
  destruct (decide (upd_QuorumMember u = true ∧ upd_ClusterDomain u = d))
    as [[Hq Hd]|Hn].
  - rewrite Hq. simpl. rewrite Hd, lookup_insert_eq. simpl.
    subst n. destruct (decide (_ = 0)) as [E|?]; f_equal; lia.
  - destruct (upd_QuorumMember u) eqn:Hq; [|done].
    rewrite lookup_insert_ne; [done|]. intros Hd. by apply Hn.
Qed.

Lemma filter_keys_length (peers : gmap string NodeUpdate) (d : string)
    (l : list (string * NodeUpdate)) :
  (∀ k u, (k, u) ∈ l → peers !! k = Some u) →
  length (filter
            (λ k, upd_QuorumMember (default zeroNodeUpdate (peers !! k)) = true ∧
                  upd_ClusterDomain (default zeroNodeUpdate (peers !! k)) = d)
            l.*1) =
  length (filter
            (λ kv : string * NodeUpdate,
               upd_QuorumMember kv.2 = true ∧ upd_ClusterDomain kv.2 = d) l).
Proof.
  induction l as [|[k u] l IH]; intros Hl; [done|].
  simpl. rewrite !filter_cons. simpl. rewrite (Hl k u) by left. simpl.
  assert (IH' := IH (λ k' u' Hin, Hl k' u' (list_elem_of_further _ _ _ Hin))).
  destruct (decide _); simpl; [f_equal|]; exact IH'.
Qed.

Lemma filter_map_length (P : string * NodeUpdate → Prop)
    `{∀ x, Decision (P x)} (peers : gmap string NodeUpdate) :
  length (filter P (map_to_list peers)) = size (filter P peers).
Proof.
  rewrite <- length_map_to_list. apply Permutation_length.
  apply NoDup_Permutation.
  - apply NoDup_filter, NoDup_map_to_list.
  - apply NoDup_map_to_list.
  - intros [k u]. rewrite list_elem_of_filter, !elem_of_map_to_list.
    rewrite map_lookup_filter_Some. tauto.
Qed.

(** X11. The map [updateCluster] returns gives, for every domain, the
    number of quorum members the peer map has in it, and has no entry for
    a domain in which the peer map has none; it does not depend on the
    store. *)
Theorem updateCluster_returns_counts (peers : gmap string NodeUpdate)
    (s : GossipStoreImpl) (c : Clock) (d : string) :
  (updateCluster peers s c).1.2 !! d =
  if decide (quorumMembersIn peers d = 0) then None
  else Some (quorumMembersIn peers d).
Proof.
  rewrite updateCluster_counts, count_member_fold. cbv zeta.
  rewrite (filter_keys_length peers d)
    by (intros k u Hin; by apply elem_of_map_to_list).
  rewrite filter_map_length. fold (quorumMembersIn peers d).
  by rewrite lookup_empty.
Qed.

(** X12. [updateCluster] with the empty peer map empties the node map,
    the self entry included, sets the cluster size to 0, returns the empty
    map, and leaves the rest of the store, the failure-domain map with it,
    as it was. *)
Theorem updateCluster_empty (s : GossipStoreImpl) (c : Clock) :
  (updateCluster ∅ s c).1 = (set_nodeMap ∅ (set_clusterSize 0%N s), ∅).
Proof.
  rewrite updateCluster_membership.
  destruct (membership_spec ∅ s c) as [Hf _]. cbv zeta in Hf.
  pose proof (membership_dom ∅ s c) as Hd.
  rewrite dom_empty_L in Hd. apply dom_empty_inv_L in Hd.
  rewrite Hd in *. unfold range. rewrite map_to_list_empty. simpl.
  rewrite Hf. by rewrite map_size_empty.
Qed.

(** X13. After [updateCluster(P)] an id is in the bucket of a domain
    exactly when [P] gives it that domain or, [P] not having the id, it was
    in that bucket before: the ids of removed nodes stay in the index. *)
Theorem updateCluster_buckets (peers : gmap string NodeUpdate)
    (s : GossipStoreImpl) (c : Clock) (d : string) (i : NodeId) :
  inBucket (updateCluster peers s c).1.1 d i ↔
  (∃ u, peers !! i = Some u ∧ upd_ClusterDomain u = d) ∨
  (peers !! i = None ∧ inBucket s d i).
Proof.
  unfold inBucket. rewrite updateCluster_bucketEntry.
  destruct (peers !! i) as [u|].
  - destruct (decide (d = upd_ClusterDomain u)) as [->|Hne].
    + split; [|eauto]. intros _. left. eauto.
    + split; [by intros [? ?]|].
      intros [(u' & [= <-] & ?)|[? _]]; congruence.
  - split; [by right|]. by intros [(? & ? & _)|[_ ?]].
Qed.

(** ** The failure-domain map, entry by entry *)

(** X14. [updateClusterDomainsMap(d, id)] leaves the id in the bucket of
    [d] and in no other, leaves every other id where it was, makes the
    bucket of [d] when it is missing and deletes no bucket, so that a
    bucket the last node leaves stays, empty; it does not touch the node
    map, and a second call with the same arguments changes nothing. *)
Theorem updateClusterDomainsMap_effect (d : string) (j : NodeId)
    (s : GossipStoreImpl) :
  let s' := updateClusterDomainsMap d j s in
  inBucket s' d j ∧
  (∀ fd, fd ≠ d → ¬ inBucket s' fd j) ∧
  (∀ fd i, i ≠ j → (inBucket s' fd i ↔ inBucket s fd i)) ∧
  is_Some (getNodesFromClusterDomain d s') ∧
  (∀ fd, is_Some (getNodesFromClusterDomain fd s) →
         is_Some (getNodesFromClusterDomain fd s')) ∧
  nodeMap s' = nodeMap s ∧
  updateClusterDomainsMap d j s' = s'.
Proof.
  cbv zeta. unfold inBucket, getNodesFromClusterDomain. simpl.
  split; [|split; [|split; [|split; [|split; [|split]]]]].
  - rewrite reindex_bucketEntry, !decide_True by done. eauto.
  - intros fd Hfd. rewrite reindex_bucketEntry, decide_True by done.
    rewrite decide_False by done. by intros [? ?].
  - intros fd i Hi. by rewrite reindex_bucketEntry, decide_False.
  - rewrite reindex_lookup, decide_True by done. eauto.
  - intros fd Hfd. rewrite reindex_lookup.
    destruct (decide (fd = d)); [eauto|].
    change (bucket (failureDomainsMap s) fd) with
      (match failureDomainsMap s with
       | Some fdm => fdm !! fd
       | None => None
       end).
    destruct Hfd as [l ->]. simpl. eauto.
  - done.
  - unfold updateClusterDomainsMap. simpl. rewrite reindex_id; [done| |].
    + rewrite reindex_bucketEntry, !decide_True by done. eauto.
    + intros fd Hfd. rewrite reindex_bucketEntry, decide_True by done.
      by rewrite decide_False.
Qed.

(** ** What the operations leave alone *)



(** ** Runs that keep the self entry *)

Lemma selfSound_insert_other s j v :
  j ≠ id s → selfSound s → selfSound (set_nodeMap (<[j := v]> (nodeMap s)) s).
Proof.
  intros Hj (ni & vm & Hni & Hid & Hv). exists ni, vm. simpl.
  by rewrite lookup_insert_ne.
Qed.

(** One operation that keeps the self entry, on a store whose self entry
    is sound, returns and leaves the self entry sound. *)
Lemma run_selfSound o s c :
  selfSound s → keepsSelf (id s) o →
  ∃ s', (run o s c).1 = Some s' ∧ id s' = id s ∧ selfSound s'.
Proof.
  intros Hs [Hrm Hpeers]. pose proof Hs as (ni & vm & Hni & Hid & Hv).
  destruct o; simpl.
  - eexists. split; [done|]. split; [done|]. unfold selfSound, lookup0. simpl.
    rewrite Hni, lookup_insert_eq. simpl. eauto.
  - unfold UpdateSelf, lookup0. rewrite Hni. simpl. rewrite Hv. simpl.
    eexists. split; [done|]. split; [done|]. unfold selfSound. simpl.
    rewrite lookup_insert_eq. eauto.
  - unfold UpdateSelfClusterDomain, updateSelfClusterDomain, bind, lookup0.
    rewrite Hni. simpl. destruct (decide _); simpl.
    + eexists. split; [done|]. split; [done|]. unfold selfSound. simpl.
      rewrite lookup_insert_eq. eauto.
    + eauto.
  - unfold updateSelfClusterDomain, bind, lookup0.
    rewrite Hni. simpl. destruct (decide _); simpl.
    + eexists. split; [done|]. split; [done|]. unfold selfSound. simpl.
      rewrite lookup_insert_eq. eauto.
    + eauto.
  - unfold UpdateSelfStatus, UpdateNodeStatus, bind. rewrite Hni. simpl.
    eexists. split; [done|]. split; [done|]. unfold selfSound. simpl.
    rewrite lookup_insert_eq. eauto.
  - unfold UpdateNodeStatus, bind.
    destruct (decide (nodeId = id s)) as [->|Hne].
    + rewrite Hni. simpl. eexists. split; [done|]. split; [done|].
      unfold selfSound. simpl. rewrite lookup_insert_eq. eauto.
    + destruct (nodeMap s !! nodeId); simpl; [|eauto].
      eexists. split; [done|]. split; [done|].
      by apply selfSound_insert_other.
  - unfold AddNode, addNodeUnlocked, bind.
    destruct (decide (nodeId = id s)) as [->|Hne].
    + rewrite Hni. simpl. eexists. split; [done|]. split; [done|].
      unfold selfSound. simpl. rewrite lookup_insert_eq. eauto.
    + destruct (nodeMap s !! nodeId); simpl;
        (eexists; split; [done|]; split; [done|];
         by apply selfSound_insert_other).
  - unfold RemoveNode. rewrite removeNodeUnlocked_store.
    eexists. split; [done|]. split; [done|]. exists ni, vm. simpl.
    rewrite lookup_delete_ne; [done|]. congruence.
  - eexists. split; [done|]. split; [apply Update_id|].
    exists ni, vm. rewrite Update_id, Update_nodeMap.
    destruct (diff !! id s); [|done].
    unfold Update_own. by rewrite decide_True.
  - unfold bind. destruct (updateCluster peers s c) as [[s1 q] c1] eqn:E.
    simpl. assert (Hs1 : s1 = (updateCluster peers s c).1.1) by by rewrite E.
    destruct (updateCluster_frame peers s c) as [[Hi _] _].
    rewrite <- Hs1 in Hi. eexists. split; [done|]. split; [done|].
    pose proof (updateCluster_nodeMap peers s c (id s)) as Hn.
    cbv zeta in Hn. rewrite <- Hs1 in Hn.
    destruct (Hpeers peers eq_refl) as [u Hu]. rewrite Hu, Hni in Hn.
    eexists. exists vm. rewrite Hi. split; [exact Hn|]. done.
  - eexists. split; [done|]. split; [done|]. exists ni, vm. done.
Qed.

(** X16. From a store whose self entry is sound, as [InitStore] makes it,
    every sequence of operations that has no [RemoveNode] of the self id
    and no [updateCluster] with a peer map without the self id runs to its
    end: no [UpdateSelf] panics, the self entry is still sound, and
    [MetaInfo] reports the self id. *)
Theorem runs_keep_self_sound (os : list Op) :
  ∀ (s : GossipStoreImpl) (c : Clock),
    selfSound s → Forall (keepsSelf (id s)) os →
    ∃ s', (runs os s c).1 = Some s' ∧ id s' = id s ∧ selfSound s' ∧
          mi_Id (MetaInfo s') = NodeId_of s'.
Proof.
  induction os as [|o os IH]; intros s c Hs Hos.
  - exists s. split; [done|]. split; [done|]. split; [done|].
    destruct Hs as (ni & vm & Hni & Hid & _).
    unfold MetaInfo, NodeId_of, lookup0. by rewrite Hni.
  - apply Forall_cons in Hos as [Ho Hos].
    destruct (run_selfSound o s c Hs Ho) as (s1 & Hrun & Hid & Hs1).
    cbn [runs]. unfold bind. destruct (run o s c) as [r c1].
    simpl in Hrun. subst r. rewrite <- Hid in Hos.
    destruct (IH s1 c1 Hs1 Hos) as (s' & Hruns & Hid' & Hs' & Hm).
    exists s'. split; [done|]. split; [congruence|done].
Qed.

Lemma runs_keep_self_sound_witness :
  ∃ s', (runs [OpAddNode "B" NODE_STATUS_UP true "d1";
               OpUpdateCluster peersAB;
               OpUpdateSelf "k" (VInt 1);
               OpRemoveNode "B"] storeA clock100).1 = Some s' ∧
        id s' = "A" ∧ selfSound s' ∧ mi_Id (MetaInfo s') = NodeId_of s'.
Proof.
  apply (runs_keep_self_sound _ storeA clock100).
  - eexists. eexists. split; [reflexivity|]. split; reflexivity.
  - repeat apply Forall_cons_2; try apply Forall_nil_2;
      (split; [discriminate|]); intros peers [= <-]; try discriminate.
    vm_compute. eauto.
Defined.

(** ** Unchecked lookups of the self entry *)

(** X17. [updateSelfTs] sets the last-update time of the self entry to
    the time it reads and touches no other entry. When the self entry is
    missing it stores the zero value under the self id: then the self
    status reads INVALID, [GetStoreKeyValue] has no entry for the self id,
    and [UpdateSelf] panics. *)
Theorem updateSelfTs_effect (s : GossipStoreImpl) (c : Clock) :
  let s' := (updateSelfTs s c).1 in
  (∀ ni, nodeMap s !! id s = Some ni →
     nodeMap s' !! id s = Some (set_LastUpdateTs (c 0) ni)) ∧
  (∀ j, j ≠ id s → nodeMap s' !! j = nodeMap s !! j) ∧
  (nodeMap s !! id s = None →
     nodeMap s' !! id s = Some (set_LastUpdateTs (c 0) zeroNodeInfo) ∧
     GetSelfStatus s' = NODE_STATUS_INVALID ∧
     (∀ k, GetStoreKeyValue k s' !! id s = None) ∧
     ∀ k v c', (UpdateSelf k v s' c').1 = None).
Proof.
  cbv zeta. unfold updateSelfTs, lookup0. simpl. split; [|split].
  - intros ni ->. by rewrite lookup_insert_eq.
  - intros j Hj. by rewrite lookup_insert_ne.
  - intros ->. simpl. split; [by rewrite lookup_insert_eq|].
    split; [|split].
    + unfold GetSelfStatus, lookup0. simpl. by rewrite lookup_insert_eq.
    + intros k. rewrite GetStoreKeyValue_lookup. simpl.
      by rewrite lookup_insert_eq.
    + intros k v c'. unfold UpdateSelf, lookup0. simpl.
      by rewrite lookup_insert_eq.
Qed.

(** ** A store just made *)

(** X18. [InitStore] leaves a node map with the self entry alone, whatever
    the store held: the entry has the given status and domain, the
    generation number of the store, the time of the call and an empty
    payload map. It keeps the cluster size, the failure-domain map and the
    lost-quorum time. In the new store [MetaInfo] reports the id, the time
    of the call, the version and the cluster id, [GetStoreKeys] is empty,
    and when the status is valid [GetStoreKeyValue] answers every key with
    one entry, for the self id, with the nil value. [NewGossipStore] is
    [InitStore] of the zero store with status NOT_IN_QUORUM, the
    self-correct flag off. *)
Theorem InitStore_state (id0 : NodeId) (version : string) (st : NodeStatus)
    (clusterId d : string) (s0 : GossipStoreImpl) (c : Clock) :
  let s := (InitStore id0 version st clusterId d s0 c).1 in
  let self := mkNodeInfo id0 (GenNumber s0) (c 0) 0%Z st (Some ∅) false d "" in
  NodeId_of s = id0 ∧
  GetLocalState s = {[id0 := self]} ∧
  GetSelfStatus s = st ∧
  MetaInfo s = mkNodeMetaInfo id0 (c 0) version clusterId ∧
  GetStoreKeys s = [] ∧
  (statusValid st = true →
   ∀ k, GetStoreKeyValue k s =
        {[id0 := mkNodeValue id0 (GenNumber s0) (c 0) st VNil]}) ∧
  selfCorrect s = true ∧
  clusterSize s = clusterSize s0 ∧
  failureDomainsMap s = failureDomainsMap s0 ∧
  lostQuorumTs s = lostQuorumTs s0 ∧
  (NewGossipStore id0 version clusterId d c).1 =
  set_selfCorrect false
    (InitStore id0 version NODE_STATUS_NOT_IN_QUORUM clusterId d zeroStore c).1.
Proof.
  cbv zeta. rewrite getLocalState_nodeMap.
  unfold GetSelfStatus, MetaInfo, NodeId_of, lookup0.
  cbn [InitStore bind time_Now ret fst snd nodeMap id GossipVersion ClusterId
       selfCorrect clusterSize failureDomainsMap lostQuorumTs].
  rewrite lookup_insert_eq. cbn [default Status Id LastUpdateTs].
  split; [done|]. split; [apply insert_empty|].
  split; [done|]. split; [done|].
  split; [|split; [|done]].
  - unfold GetStoreKeys, range. cbn [nodeMap]. rewrite insert_empty.
    rewrite map_to_list_singleton. cbn [foldl fst snd].
    unfold GetStoreKeys_body. cbn [Value].
    unfold range. rewrite !map_to_list_empty. cbn [foldl].
    by rewrite map_size_empty, map_to_list_empty.
  - intros Hst k. apply map_eq; intros i.
    rewrite GetStoreKeyValue_lookup. cbn [nodeMap]. rewrite insert_empty.
    destruct (decide (i = id0)) as [->|Hne].
    + rewrite !lookup_singleton_eq. cbn [Value Status]. rewrite Hst.
      by rewrite map_size_empty, lookup_empty.
    + by rewrite !lookup_singleton_ne.
Qed.

(** ** The domain of the self node *)

(** X19. [updateSelfClusterDomain(d)] returns false exactly when [d] is
    the domain the unchecked lookup of the self entry reads (the empty
    domain when the entry is missing), and then it changes nothing. When
    it returns true the self entry has the domain [d] and the time of the
    call, and a second call returns false. In both cases the
    failure-domain map is as it was: this method does not re-index. *)
Theorem updateSelfClusterDomain_effect (d : string) (s : GossipStoreImpl)
    (c : Clock) :
  let r := (updateSelfClusterDomain d s c).1 in
  (r.1 = false ↔ ClusterDomain (lookup0 (nodeMap s) (id s)) = d) ∧
  (r.1 = false → r.2 = s) ∧
  (r.1 = true →
     nodeMap r.2 !! id s =
     Some (set_LastUpdateTs (c 0)
             (set_ClusterDomain d (lookup0 (nodeMap s) (id s)))) ∧
     ∀ c', (updateSelfClusterDomain d r.2 c').1 = (false, r.2)) ∧
  failureDomainsMap r.2 = failureDomainsMap s.
Proof.
  cbv zeta. unfold updateSelfClusterDomain.
  destruct (decide (ClusterDomain (lookup0 (nodeMap s) (id s)) ≠ d))
    as [Hne|Heq]; simpl.
  - split; [split; [done|by intros ?]|]. split; [done|]. split; [|done].
    intros _. split; [apply lookup_insert_eq|]. intros c'.
    unfold lookup0. simpl. rewrite lookup_insert_eq. simpl.
    rewrite decide_False; [done|]. by intros H; apply H.
  - apply dec_stable in Heq. split; [by split|]. split; [done|].
    split; [done|done].
Qed.

(** ** Gossip carries the payload *)

(** X20. When a merge brings, for a known peer with a valid status, an
    entry written later than the local one, whose payload map has the key
    [k], [GetStoreKeyValue(k)] then answers for that peer with the remote
    value, generation number and time, under the local status. *)
Theorem Update_then_GetStoreKeyValue (diff : NodeInfoMap)
    (s : GossipStoreImpl) (i : NodeId) (local remote : NodeInfo)
    (vm : gmap string StoreValue) (k : StoreKey) (v : StoreValue) :
  i ≠ id s → nodeMap s !! i = Some local → diff !! i = Some remote →
  statusValid (Status local) = true →
  (LastUpdateTs local < LastUpdateTs remote)%Z →
  Value remote = Some vm → vm !! k = Some v →
  GetStoreKeyValue k (Update diff s) !! i =
  Some (mkNodeValue (Id remote) (types.GenNumber remote)
          (LastUpdateTs remote) (Status local) v).
Proof.
  intros Hi Hl Hd Hst Hlt Hv Hk.
  rewrite GetStoreKeyValue_lookup, Update_nodeMap, Hd, Hl.
  unfold Update_own. rewrite decide_False by done. rewrite Hst. simpl.
  unfold Before. rewrite bool_decide_eq_true_2 by done. simpl.
  rewrite Hv, Hst, Hk. simpl. by rewrite orb_true_r.
Qed.

Lemma Update_then_GetStoreKeyValue_witness :
  GetStoreKeyValue "k" (Update (<["B" := remoteB]> ∅) storeAB) !! "B" =
  Some (mkNodeValue "B" 3%N 200%Z NODE_STATUS_DOWN (VInt 7)).
Proof.
  apply (Update_then_GetStoreKeyValue (<["B" := remoteB]> ∅) storeAB "B"
           (mkNodeInfo "B" 0%N 100%Z 101%Z NODE_STATUS_DOWN (Some ∅) true
              "d1" "")
           remoteB (<["k" := VInt 7]> ∅) "k" (VInt 7));
    try reflexivity; discriminate.
Defined.

End proto.
